(** * CRC code generator (phy_fpga/crcgen.py): symbolic expression engine

    A shallow embedding of the expression model ([Bit], [XOR], [Word]), of
    the generator [CrcGen.__gen] and of the command-line validation of
    [crcgen.py], together with the properties of the unrolled CRC formulas.

    Python objects are modelled with an explicit store: a [Bit] is an
    immutable value compared by name and index; an [XOR] is a mutable object
    with identity, so an expression refers to it through its location in
    the heap.  Exceptions are explicit results. *)

From Stdlib Require Import ZArith Lia Bool.
From stdpp Require Import base list strings.

(** ** Data model *)

(** Location of an [XOR] object in the store. *)
Abbreviation loc := nat (only parsing).

(** A Python value held in an operand list or in a [Word]: either a [Bit]
    (dataclass with fields [name], [index]) or a reference to an [XOR]
    object. *)
Inductive item : Type :=
  | Bit (name : string) (index : Z)
  | Ref (l : loc).

(** The store: the object at location [l] is an [XOR] whose private field
    [__items] is [h !! l].  Objects are allocated at the end and never
    freed. *)
Abbreviation heap := (list (list item)) (only parsing).

(** Python exceptions that the modelled code can raise. *)
Inductive exn : Type :=
  | AssertionError
  | NameError (name : string)
  | IndexError
  | ValueError
  | TypeError
  | UnboundLocalError
  | SyntaxError
  | Exception (msg : string).

(** Outcome of a computation: normal return with the new store, a raised
    exception, or [Stuck] when the model itself cannot continue (recursion
    fuel exhausted, or a location that is not allocated; neither is the
    outcome of a Python run). *)
Inductive res (A : Type) : Type :=
  | Ok (a : A) (h : heap)
  | Raise (e : exn)
  | Stuck.
Arguments Ok {A} a h.
Arguments Raise {A} e.
Arguments Stuck {A}.

Definition M (A : Type) : Type := heap -> res A.

Definition ret {A} (a : A) : M A := fun h => Ok a h.

Definition bind {A B} (m : M A) (k : A -> M B) : M B :=
  fun h => match m h with
           | Ok a h' => k a h'
           | Raise e => Raise e
           | Stuck => Stuck
           end.

Definition raise {A} (e : exn) : M A := fun _ => Raise e.

Notation "'let*' x ':=' m 'in' k" := (bind m (fun x => k))
  (at level 10, x pattern, m at level 100, k at level 200,
   format "'[v' 'let*'  x  ':='  m  'in' '/' k ']'").

(** [assert(c)] *)
Definition assert (c : bool) : M unit :=
  if c then ret tt else raise AssertionError.

(** [for x in l: body x], the body run for its effects. *)
Fixpoint forM_ {A} (body : A -> M unit) (l : list A) : M unit :=
  match l with
  | [] => ret tt
  | x :: l' => let* _ := body x in forM_ body l'
  end.

(** List comprehension [[body x for x in l]] with an effectful body. *)
Fixpoint mapM {A B} (body : A -> M B) (l : list A) : M (list B) :=
  match l with
  | [] => ret []
  | x :: l' => let* y := body x in
               let* ys := mapM body l' in
               ret (y :: ys)
  end.

(** ** class Bit *)

Definition isinstance_Bit (x : item) : bool :=
  match x with Bit _ _ => true | Ref _ => false end.

Definition isinstance_XOR (x : item) : bool :=
  match x with Bit _ _ => false | Ref _ => true end.

(** [Bit.__eq__(self, other)] *)
Definition Bit_eq (name : string) (index : Z) (other : item) : bool :=
  match other with
  | Bit name' index' => String.eqb name name' && Z.eqb index index'
  | Ref _ => false
  end.

(** [x == y] on values.  [XOR] defines no [__eq__], so two [XOR] values are
    equal exactly when they are the same object; comparing an [XOR] with a
    [Bit] falls back on the reflected [Bit.__eq__], which answers [False]. *)
Definition py_eq (x y : item) : bool :=
  match x with
  | Bit name index => Bit_eq name index y
  | Ref l => match y with
             | Ref l' => Nat.eqb l l'
             | Bit name index => Bit_eq name index x
             end
  end.

(** [x in l] for a Python list [l]. *)
Definition py_in (x : item) (l : list item) : bool :=
  existsb (fun e => py_eq e x) l.

(** ** class XOR *)

(** [XOR.__init__(self, *items)], called as [XOR(a, b, ...)]: allocates a
    new object. *)
Definition XOR_init (items : list item) : M item :=
  let* _ := assert (2 <=? length items) in
  fun h => Ok (Ref (length h)) (h ++ [items]).

(** [sum(1 if (isinstance(i, Bit) and i == item) else 0 for i in items)] *)
Definition count_equal_bits (item0 : item) (items : list item) : Z :=
  fold_left Z.add
    (map (fun i => if isinstance_Bit i && py_eq i item0 then 1%Z else 0%Z) items)
    0%Z.

(** One iteration of the loop of [XOR.optimize]; [items] is [self.__items]
    and [newItems] the list built so far. *)
Definition optimize_step (items : list item) (newItems : list item)
    (item0 : item) : list item :=
  if py_in item0 newItems then newItems
  else if negb (isinstance_Bit item0) then newItems ++ [item0]
  else if negb (Z.eqb (count_equal_bits item0 items mod 2) 0)
       then newItems ++ [item0]
       else newItems.

Definition optimize_items (items : list item) : list item :=
  fold_left (optimize_step items) items [].

(** [XOR.optimize(self)] for the object at [l]: replaces [self.__items]. *)
Definition XOR_optimize (l : loc) : M unit :=
  fun h => match h !! l with
           | Some items => Ok tt (<[l := optimize_items items]> h)
           | None => Stuck
           end.

(** [item.optimize()]: [Bit.optimize] does nothing. *)
Definition item_optimize (x : item) : M unit :=
  match x with
  | Bit _ _ => ret tt
  | Ref l => XOR_optimize l
  end.

(** [yield from] every operand in turn. *)
Definition yield_from (rec : item -> option (list item)) (items : list item)
    : option (list item) :=
  foldr (fun i acc => match rec i, acc with
                      | Some bs, Some rest => Some (bs ++ rest)
                      | _, _ => None
                      end) (Some []) items.

(** [list(item.allBitsRecursive)]: the generator of [Bit] yields the bit
    itself, the one of [XOR] yields from every operand in turn.  The
    recursion follows references, hence the fuel. *)
Fixpoint allBitsRecursive (fuel : nat) (h : heap) (x : item)
    : option (list item) :=
  match x with
  | Bit _ _ => Some [x]
  | Ref l =>
      match fuel with
      | O => None
      | S fuel' =>
          match h !! l with
          | Some items => yield_from (allBitsRecursive fuel' h) items
          | None => None
          end
      end
  end.

(** ** class Word

    A [Word] object is only reached through one local variable, so it is
    modelled by the value of its field [__items]. *)
Abbreviation Word := (list item) (only parsing).

(** [Word.__init__]: [bits] is the argument tuple, or the single list
    argument. *)
Definition Word_init (bits : list item) (MSB : bool) : Word :=
  if MSB then rev bits else bits.

(** [self.__items[index]] with Python's indexing. *)
Definition Word_getitem (w : Word) (index : Z) : M item :=
  let n := Z.of_nat (length w) in
  let i := if (index <? 0)%Z then (index + n)%Z else index in
  if ((0 <=? i) && (i <? n))%Z
  then match w !! Z.to_nat i with
       | Some x => ret x
       | None => raise IndexError
       end
  else raise IndexError.

(** Loop of [Word.flatten]; the [else] branch appends the undefined name
    [bit]. *)
Fixpoint flatten_loop (fuel : nat) (items newItems : list item)
    : M (list item) :=
  match items with
  | [] => ret newItems
  | x :: rest =>
      if isinstance_XOR x then
        fun h => match allBitsRecursive fuel h x with
                 | Some bits =>
                     (let* y := XOR_init bits in
                      flatten_loop fuel rest (newItems ++ [y])) h
                 | None => Stuck
                 end
      else raise (NameError "bit")
  end.

Definition Word_flatten (fuel : nat) (w : Word) : M Word :=
  flatten_loop fuel w [].

Definition Word_optimize (w : Word) : M unit :=
  forM_ item_optimize w.

(** ** class CrcGen *)

Record CrcGen : Type := { P : Z; nrBits : Z }.

(** [CrcGen(P, nrBits)] *)
Definition CrcGen_init (P0 nrBits0 : Z) : M CrcGen :=
  let* _ := assert (negb (Z.eqb (Z.land P0 1) 0)) in
  ret {| P := P0; nrBits := nrBits0 |}.

(** [reversed(range(8))] *)
Definition reversed_range8 : list Z := [7; 6; 5; 4; 3; 2; 1; 0]%Z.

(** The local function [p] of [__gen]; [>>] raises for a negative count. *)
Definition p (self : CrcGen) (a : option item) (b : item) (bitNr : Z) : M item :=
  match a with
  | None => ret b
  | Some a' =>
      if (bitNr <? 0)%Z then raise ValueError
      else if negb (Z.eqb (Z.land (Z.shiftr (P self) bitNr) 1) 0)
      then XOR_init [a'; b]
      else ret a'
  end.

(** Lines 129-132: the words [inData], [inCrc] and [base]. *)
Definition gen_base (dataVarName crcVarName : string) : M Word :=
  let inData := Word_init (map (fun i => Bit dataVarName i) reversed_range8) true in
  let inCrc := Word_init (map (fun i => Bit crcVarName i) reversed_range8) true in
  let* xs := mapM (fun i => let* a := Word_getitem inData i in
                            let* b := Word_getitem inCrc i in
                            XOR_init [a; b]) reversed_range8 in
  ret (Word_init xs true).

(** One argument [p(prevWord[i], prevWord[7], bitNr)] of the call of
    [Word] in the loop ([ai] is [None] for the argument [p(None, ...)]). *)
Definition p_at (self : CrcGen) (prevWord : Word) (ai : option Z) (bitNr : Z)
    : M item :=
  let* a := match ai with
            | Some i => let* x := Word_getitem prevWord i in ret (Some x)
            | None => ret None
            end in
  let* b := Word_getitem prevWord 7 in
  p self a b bitNr.

(** The body of the loop [for i in range(8)]: the next word. *)
Definition gen_round (self : CrcGen) (prevWord : Word) : M Word :=
  let* x7 := p_at self prevWord (Some 6%Z) 7 in
  let* x6 := p_at self prevWord (Some 5%Z) 6 in
  let* x5 := p_at self prevWord (Some 4%Z) 5 in
  let* x4 := p_at self prevWord (Some 3%Z) 4 in
  let* x3 := p_at self prevWord (Some 2%Z) 3 in
  let* x2 := p_at self prevWord (Some 1%Z) 2 in
  let* x1 := p_at self prevWord (Some 0%Z) 1 in
  let* x0 := p_at self prevWord None 0 in
  ret (Word_init [x7; x6; x5; x4; x3; x2; x1; x0] true).

(** [n] iterations of the loop, from [prevWord]. *)
Fixpoint gen_rounds (self : CrcGen) (n : nat) (prevWord : Word) : M Word :=
  match n with
  | O => ret prevWord
  | S n' => let* word := gen_round self prevWord in
            gen_rounds self n' word
  end.

(** Lines 129-151 of [__gen]: the word handed to [flatten]. *)
Definition gen_unroll (self : CrcGen) (dataVarName crcVarName : string) : M Word :=
  let* base := gen_base dataVarName crcVarName in
  gen_rounds self 8 base.

(** [CrcGen.__gen(self, dataVarName, crcVarName)] *)
Definition gen (fuel : nat) (self : CrcGen) (dataVarName crcVarName : string)
    : M Word :=
  let* _ := assert (Z.eqb (nrBits self) 8) in
  let* word := gen_unroll self dataVarName crcVarName in
  let* word := Word_flatten fuel word in
  let* _ := Word_optimize word in
  ret word.

(** ** Rendering

    [py()] and [verilog()] return text.  The text of an expression is
    represented by its syntax tree, one constructor per format string:
    those of [Bit.py] and [XOR.py] for the Python and C notation, those of
    [Bit.verilog] and [XOR.verilog] for Verilog. *)
#[warnings="-register-all"]
Inductive expr : Type :=
  | EBit0 (name : string)                 (* "(%s & 1)" *)
  | EBitShift (name : string) (index : Z) (* "((%s >> %d) & 1)" *)
  | EXor (operands : list expr).          (* "(%s)" % " ^ ".join(...) *)

#[warnings="-register-all"]
Inductive vexpr : Type :=
  | VBitSel (name : string) (index : Z)   (* "%s[%d]" *)
  | VXor (operands : list vexpr).         (* "(%s)" % " ^ ".join(...) *)

(** [Bit.py(self)] *)
Definition Bit_py (name : string) (index : Z) : expr :=
  if negb (Z.eqb index 0) then EBitShift name index else EBit0 name.

(** [Bit.verilog(self)] *)
Definition Bit_verilog (name : string) (index : Z) : vexpr :=
  VBitSel name index.

(** The renderings of the operands of an [XOR], in order. *)
Definition render_items {E} (rec : item -> option E) (items : list item)
    : option (list E) :=
  foldr (fun i acc => match rec i, acc with
                      | Some e, Some rest => Some (e :: rest)
                      | _, _ => None
                      end) (Some []) items.

(** [item.py()] *)
Fixpoint item_py (fuel : nat) (h : heap) (x : item) : option expr :=
  match x with
  | Bit name index => Some (Bit_py name index)
  | Ref l =>
      match fuel with
      | O => None
      | S fuel' =>
          match h !! l with
          | Some items => EXor <$> render_items (item_py fuel' h) items
          | None => None
          end
      end
  end.

(** [item.verilog()] *)
Fixpoint item_verilog (fuel : nat) (h : heap) (x : item) : option vexpr :=
  match x with
  | Bit name index => Some (Bit_verilog name index)
  | Ref l =>
      match fuel with
      | O => None
      | S fuel' =>
          match h !! l with
          | Some items => VXor <$> render_items (item_verilog fuel' h) items
          | None => None
          end
      end
  end.

(** The rendering of every position of a word, in the order of
    [enumerate(word)]. *)
Definition render_word {E} (rec : heap -> item -> option E) (w : Word)
    : M (list E) :=
  mapM (fun x h => match rec h x with
                   | Some e => Ok e h
                   | None => Stuck
                   end) w.

(** A line of the body of the generated Python or C function:
    [ret = (e)] for position 0 and [ret |= (e) << i] for position [i]. *)
Inductive stmt : Type :=
  | Assign (e : expr)
  | OrAssign (e : expr) (shift : Z).

Definition body_line (i : nat) (e : expr) : stmt :=
  if negb (Nat.eqb i 0) then OrAssign e (Z.of_nat i) else Assign e.

(** The generated text, up to the fixed wording of the templates: what each
    emitter substitutes into its template. *)
Inductive text : Type :=
  | PythonText (polynomial : Z) (funcName crcVarName dataVarName : string)
      (body : list stmt)
  | VerilogText (polynomial : Z) (genFunction : bool)
      (name inDataName inCrcName outCrcName : string) (width : Z)
      (assigns : list vexpr)
  | CText (polynomial : Z) (funcName crcVarName dataVarName : string)
      (static inline : bool) (width : Z) (body : list stmt).

(** [CrcGen.genPython] *)
Definition genPython (fuel : nat) (self : CrcGen)
    (funcName crcVarName dataVarName : string) : M text :=
  let* word := gen fuel self dataVarName crcVarName in
  let* es := render_word (item_py fuel) word in
  ret (PythonText (P self) funcName crcVarName dataVarName (imap body_line es)).

(** [CrcGen.genVerilog] *)
Definition genVerilog (fuel : nat) (self : CrcGen) (genFunction : bool)
    (name inDataName inCrcName outCrcName : string) : M text :=
  let* word := gen fuel self inDataName inCrcName in
  let* es := render_word (item_verilog fuel) word in
  ret (VerilogText (P self) genFunction name inDataName inCrcName outCrcName
         (nrBits self) es).

(** [CrcGen.genC] *)
Definition genC (fuel : nat) (self : CrcGen)
    (funcName crcVarName dataVarName : string) (static inline : bool) : M text :=
  let* word := gen fuel self dataVarName crcVarName in
  let* es := render_word (item_py fuel) word in
  ret (CText (P self) funcName crcVarName dataVarName static inline
         (nrBits self) (imap body_line es)).

(** ** Running the generated Python function

    Values of the generated code: integers, and the empty tuple that the
    text ["()"] of an [XOR] without operands denotes. *)
Inductive pyval : Type :=
  | VInt (z : Z)
  | VEmptyTuple.

Abbreviation env := (string -> option pyval) (only parsing).

Definition env_set (name : string) (v : pyval) (rho : env) : env :=
  fun n => if String.eqb n name then Some v else rho n.

Definition lookup_var (rho : env) (name : string) : exn + pyval :=
  match rho name with
  | Some v => inr v
  | None => inl (NameError name)
  end.

(** Binary operators of the generated code; a tuple operand is a
    [TypeError], a negative shift count a [ValueError]. *)
Definition py_and (a b : pyval) : exn + pyval :=
  match a, b with
  | VInt x, VInt y => inr (VInt (Z.land x y))
  | _, _ => inl TypeError
  end.

Definition py_xor (a b : pyval) : exn + pyval :=
  match a, b with
  | VInt x, VInt y => inr (VInt (Z.lxor x y))
  | _, _ => inl TypeError
  end.

Definition py_or (a b : pyval) : exn + pyval :=
  match a, b with
  | VInt x, VInt y => inr (VInt (Z.lor x y))
  | _, _ => inl TypeError
  end.

Definition py_rshift (a b : pyval) : exn + pyval :=
  match a, b with
  | VInt x, VInt y => if (y <? 0)%Z then inl ValueError else inr (VInt (Z.shiftr x y))
  | _, _ => inl TypeError
  end.

Definition py_lshift (a b : pyval) : exn + pyval :=
  match a, b with
  | VInt x, VInt y => if (y <? 0)%Z then inl ValueError else inr (VInt (Z.shiftl x y))
  | _, _ => inl TypeError
  end.

Definition andThen {A B} (r : exn + A) (k : A -> exn + B) : exn + B :=
  match r with
  | inl e => inl e
  | inr a => k a
  end.

(** Value of the Python expression that an [expr] stands for. *)
Fixpoint eval_expr (rho : env) (e : expr) : exn + pyval :=
  match e with
  | EBit0 name =>
      andThen (lookup_var rho name) (fun v => py_and v (VInt 1))
  | EBitShift name index =>
      andThen (lookup_var rho name) (fun v =>
      andThen (py_rshift v (VInt index)) (fun s => py_and s (VInt 1)))
  | EXor [] => inr VEmptyTuple
  | EXor (e0 :: es) =>
      fold_left (fun acc e' =>
                   andThen acc (fun a =>
                   andThen (eval_expr rho e') (fun b => py_xor a b)))
                es (eval_expr rho e0)
  end.

(** One line of the body, acting on the local variable [ret]. *)
Definition exec_stmt (rho : env) (s : stmt) : exn + env :=
  match s with
  | Assign e =>
      andThen (eval_expr rho e) (fun v => inr (env_set "ret" v rho))
  | OrAssign e shift =>
      match rho "ret" with
      | None => inl UnboundLocalError
      | Some r =>
          andThen (eval_expr rho e) (fun v =>
          andThen (py_lshift v (VInt shift)) (fun s' =>
          andThen (py_or r s') (fun r' => inr (env_set "ret" r' rho))))
      end
  end.

Fixpoint exec_body (rho : env) (body : list stmt) : exn + env :=
  match body with
  | [] => inr rho
  | s :: rest => andThen (exec_stmt rho s) (fun rho' => exec_body rho' rest)
  end.

(** The call [f(c, d)] of the function defined by the text
    [def f(crcVarName, dataVarName): body; return ret]; the definition is
    refused when the two parameters have the same name.  Only the text of
    [genPython] is run. *)
Definition call_python (t : text) (c d : Z) : exn + pyval :=
  match t with
  | PythonText _ _ crcVarName dataVarName body =>
      if String.eqb crcVarName dataVarName then inl SyntaxError
      else
        let rho := env_set dataVarName (VInt d)
                     (env_set crcVarName (VInt c) (fun _ => None)) in
        andThen (exec_body rho body) (fun rho' =>
        match rho' "ret" with
        | Some v => inr v
        | None => inl UnboundLocalError
        end)
  | _ => inl TypeError
  end.

(** ** The reference implementation of the self test *)

(** [crc8_ref(crc, data, P)] *)
Definition crc8_step (P0 : Z) (data : Z) : Z :=
  Z.land (Z.lxor (Z.shiftl data 1)
                 (if negb (Z.eqb (Z.land data 128) 0) then P0 else 0)) 255.

Definition crc8_ref (crc data P0 : Z) : Z :=
  Nat.iter 8 (crc8_step P0) (Z.lxor data crc).

(** ** The command line

    The parsed arguments ([argparse] itself is not modelled). *)
Record Args : Type := {
  python : bool;
  verilog_function : bool;
  verilog_module : bool;
  c : bool;
  polynomial : Z;
  nr_bits : Z;
  name : string;
  data_param : string;
  crc_in_param : string;
  crc_out_param : string;
  static : bool;
  inline : bool;
  test : bool
}.

(** What the program writes on standard output. *)
Inductive printed : Type :=
  | PrintText (t : text)
  | PrintLine (s : string).

(** The run of the program: standard output, the exception reported on
    standard error by the handler (as ["ERROR: %s"]), and the exit status
    ([None] when the model is stuck). *)
Record outcome : Type := {
  stdout : list printed;
  stderr : option exn;
  exit_status : option Z
}.

Definition exit_ok (out : list printed) : outcome :=
  {| stdout := out; stderr := None; exit_status := Some 0%Z |}.

Definition exit_error (out : list printed) (e : exn) : outcome :=
  {| stdout := out; stderr := Some e; exit_status := Some 1%Z |}.

Definition no_outcome (out : list printed) : outcome :=
  {| stdout := out; stderr := None; exit_status := None |}.

(** Lines 287-288: the check of the polynomial.  [or] evaluates its second
    operand only when the first is false; [1 << n] raises for [n < 0]. *)
Definition validate (args : Args) : exn + unit :=
  if negb (negb (Z.eqb (Z.land (polynomial args) 1) 0))
  then inl (Exception "Invalid polynomial.")
  else if (nr_bits args <? 0)%Z then inl ValueError
  else if (polynomial args >? Z.shiftl 1 (nr_bits args) - 1)%Z
  then inl (Exception "Invalid polynomial.")
  else inr tt.

(** [range(256)] *)
Definition range256 : list Z := map Z.of_nat (seq 0 256).

Fixpoint first_failure {A} (f : A -> option exn) (l : list A) : option exn :=
  match l with
  | [] => None
  | x :: l' => match f x with
               | Some e => Some e
               | None => first_failure f l'
               end
  end.

Definition pyval_eqb (a b : pyval) : bool :=
  match a, b with
  | VInt x, VInt y => Z.eqb x y
  | VEmptyTuple, VEmptyTuple => true
  | _, _ => false
  end.

(** Lines 301-304: the two nested loops of the self test. *)
Definition self_test (pyCode : text) (P0 : Z) : option exn :=
  first_failure (fun c0 =>
    first_failure (fun d =>
      match call_python pyCode c0 d with
      | inl e => Some e
      | inr v => if negb (pyval_eqb (VInt (crc8_ref c0 d P0)) v)
                 then Some (Exception "Test failed.")
                 else None
      end) range256) range256.

(** Prints the text that an emitter returns. *)
Definition print_generated (m : M text) (h : heap) : outcome :=
  match m h with
  | Ok t _ => exit_ok [PrintText t]
  | Raise e => exit_error [] e
  | Stuck => no_outcome []
  end.

(** The body of [if __name__ == "__main__":], after [parse_args]. *)
Definition main (fuel : nat) (args : Args) : outcome :=
  match validate args with
  | inl e => exit_error [] e
  | inr _ =>
      match CrcGen_init (polynomial args) (nr_bits args) [] with
      | Raise e => exit_error [] e
      | Stuck => no_outcome []
      | Ok gen0 h =>
          if test args then
            match genPython fuel gen0 "crc" "crc" "data" h with
            | Raise e => exit_error [] e
            | Stuck => no_outcome []
            | Ok pyCode _ =>
                match self_test pyCode (polynomial args) with
                | Some e => exit_error [PrintLine "Testing..."] e
                | None => exit_ok [PrintLine "Testing..."; PrintLine "done."]
                end
            end
          else if python args then
            print_generated (genPython fuel gen0 (name args)
                               (crc_in_param args) (data_param args)) h
          else if verilog_function args then
            print_generated (genVerilog fuel gen0 true (name args)
                               (data_param args) (crc_in_param args)
                               (crc_out_param args)) h
          else if verilog_module args then
            print_generated (genVerilog fuel gen0 false (name args)
                               (data_param args) (crc_in_param args)
                               (crc_out_param args)) h
          else if c args then
            print_generated (genC fuel gen0 (name args) (crc_in_param args)
                               (data_param args) (static args) (inline args)) h
          else exit_ok []
      end
  end.

(** ** Definitions used to state the properties *)

#[global] Instance item_eq_dec : EqDecision item.
Proof. solve_decision. Defined.

(** The command line [crcgen.py -p -P 8]. *)
Definition args_0x08 : Args :=
  {| python := true; verilog_function := false; verilog_module := false;
     c := false; polynomial := 8; nr_bits := 8; name := "crc";
     data_param := "data"; crc_in_param := "crcIn"; crc_out_param := "crcOut";
     static := false; inline := false; test := false |}.

(** Number of operands of [l] equal to [x] (the same bit, or the same
    [XOR] object). *)
Definition occurrences (x : item) (l : list item) : nat :=
  length (filter (fun y => y = x) l).

(** The list [l] with every operand dropped that already occurs earlier. *)
Fixpoint first_occurrences (l : list item) : list item :=
  match l with
  | [] => []
  | x :: l' => x :: filter (fun y => y <> x) (first_occurrences l')
  end.

(** The operands of [L] that [optimize] keeps: every [XOR] object, and the
    bits that occur an odd number of times. *)
Definition survives (L : list item) (x : item) : bool :=
  negb (isinstance_Bit x) || Nat.odd (occurrences x L).

(** The statement of C3 about operands that are not bits, in its own
    words: each of them is kept, as many times as it occurs in [L]. *)
Definition keeps_every_non_bit (L newItems : list item) : Prop :=
  forall x, isinstance_Bit x = false ->
            occurrences x newItems = occurrences x L.

(** [x] is an [XOR] object of the store [h] with exactly these operands. *)
Definition is_XOR_of (h : heap) (x : item) (operands : list item) : Prop :=
  exists l, x = Ref l /\ h !! l = Some operands.

(** The specification's [combine(a, b, tapBit)]: [ExclusiveOr(a, b)] if bit
    [tapBit] of the polynomial is set, otherwise [a] unchanged. *)
Definition combine_spec (P0 : Z) (h : heap) (a b : item) (tapBit : Z)
    (x : item) : Prop :=
  if Z.testbit P0 tapBit then is_XOR_of h x [a; b] else x = a.

(** The specification's base word: position [i] is
    [ExclusiveOr(dataBit_i, crcBit_i)], for [i] in 0..7. *)
Definition base_spec (dataVarName crcVarName : string) (h : heap)
    (base : list item) : Prop :=
  length base = 8 /\
  forall i, i < 8 ->
    exists x, base !! i = Some x /\
              is_XOR_of h x [Bit dataVarName (Z.of_nat i);
                             Bit crcVarName (Z.of_nat i)].

(** The specification's derivation round from [prev] to [new]. *)
Definition round_spec (P0 : Z) (h : heap) (prev new : list item) : Prop :=
  length new = 8 /\
  (forall i, 1 <= i <= 7 ->
     exists a b x, prev !! (i - 1) = Some a /\ prev !! 7 = Some b /\
                   new !! i = Some x /\
                   combine_spec P0 h a b (Z.of_nat i) x) /\
  (exists b, prev !! 7 = Some b /\ new !! 0 = Some b).

(** *** Meaning of expressions *)

(** Exclusive or of the truth values [v x] of the operands [x] of [l]. *)
Definition xor_all (v : item -> bool) (l : list item) : bool :=
  foldr (fun x acc => xorb (v x) acc) false l.

(** Exclusive or of values that may be undefined. *)
Definition xor_defined (l : list (option bool)) : option bool :=
  foldr (fun o acc => match o, acc with
                      | Some a, Some b => Some (xorb a b)
                      | _, _ => None
                      end) (Some false) l.

(** The boolean function that an expression denotes under XOR semantics,
    for an assignment [rho] of truth values to the bits of the registers;
    [None] when the fuel does not reach every leaf. *)
Fixpoint denote (fuel : nat) (h : heap) (rho : string -> Z -> bool) (x : item)
    : option bool :=
  match x with
  | Bit name index => Some (rho name index)
  | Ref l =>
      match fuel with
      | O => None
      | S fuel' =>
          match h !! l with
          | Some items => xor_defined (map (denote fuel' h rho) items)
          | None => None
          end
      end
  end.

(** [x] is an expression tree over [Bit] leaves as the constructor builds
    them: every [XOR] in it has at least two operands (and is reached
    within [fuel] references). *)
Fixpoint xor_tree (fuel : nat) (h : heap) (x : item) : bool :=
  match x with
  | Bit _ _ => true
  | Ref l =>
      match fuel with
      | O => false
      | S fuel' =>
          match h !! l with
          | Some items => (2 <=? length items) && forallb (xor_tree fuel' h) items
          | None => false
          end
      end
  end.

(** No two operands of the [XOR] object [x] are the same [XOR] object. *)
Definition distinct_objects (h : heap) (x : item) : Prop :=
  exists l items, x = Ref l /\ h !! l = Some items /\
                  NoDup (filter (fun y => isinstance_XOR y = true) items).

(** The statement of C7: a transformation of the word [w] in the store [h]
    into [w'] in [h'] keeps the number of positions and what each position
    denotes. *)
Definition preserves_meaning (fuel : nat) (h : heap) (w : list item)
    (h' : heap) (w' : list item) : Prop :=
  length w' = length w /\
  forall i x x' rho, w !! i = Some x -> w' !! i = Some x' ->
                     denote fuel h' rho x' = denote fuel h rho x.

(** The assignment given by the values [c0] of the register and [d0] of the
    input byte. *)
Definition inputs (crcVarName dataVarName : string) (c0 d0 : Z)
    : string -> Z -> bool :=
  fun name index =>
    Z.testbit (if String.eqb name dataVarName then d0 else c0) index.

Definition bit_value (rho : string -> Z -> bool) (x : item) : bool :=
  match x with
  | Bit name index => rho name index
  | Ref _ => false
  end.

(** [x] is one of the sixteen input bits. *)
Definition input_bit (dataVarName crcVarName : string) (x : item) : Prop :=
  exists name index, x = Bit name index /\
                     (name = dataVarName \/ name = crcVarName) /\
                     (0 <= index < 8)%Z.

(** Position [x] of a word of the unrolling is an [XOR] whose leaves,
    enumerated within [n] references, are at least two input bits and
    compute [f] of the register value and of the input byte. *)
Definition formula_of (dataVarName crcVarName : string) (P0 : Z) (n : nat)
    (h : heap) (x : item) (f : Z -> Z -> bool) : Prop :=
  exists bits,
    isinstance_XOR x = true /\
    allBitsRecursive n h x = Some bits /\
    2 <= length bits /\
    Forall (input_bit dataVarName crcVarName) bits /\
    (dataVarName <> crcVarName -> Z.odd P0 = true ->
     forall c0 d0,
       xor_all (bit_value (inputs crcVarName dataVarName c0 d0)) bits = f c0 d0).

(** The word after [k] rounds holds the bits of the register after [k]
    steps of the bit-serial algorithm. *)
Definition word_inv (dataVarName crcVarName : string) (P0 : Z) (n : nat)
    (h : heap) (w : list item) (k : nat) : Prop :=
  length w = 8 /\
  forall i, i < 8 ->
    exists x, w !! i = Some x /\
      formula_of dataVarName crcVarName P0 n h x
        (fun c0 d0 => Z.testbit (Nat.iter k (crc8_step P0) (Z.lxor d0 c0))
                                (Z.of_nat i)).

(** The rendering of a leaf of a flattened [XOR]. *)
Definition leaf_py (x : item) : expr :=
  match x with
  | Bit name index => Bit_py name index
  | Ref _ => EXor []
  end.

(** The variables of the generated function hold the register value [c0]
    and the input byte [d0]. *)
Definition env_ok (crcVarName dataVarName : string) (c0 d0 : Z)
    (rho : string -> option pyval) : Prop :=
  rho crcVarName = Some (VInt c0) /\ rho dataVarName = Some (VInt d0).

(** *** Meaning of the Verilog expressions *)

(** Value of the Verilog expression that a [vexpr] stands for, [rho] giving
    the bits of the vectors: [name[index]] selects a bit, [(a ^ b ^ ...)]
    is their exclusive or; the empty parentheses ["()"] are no expression. *)
Fixpoint eval_vexpr (rho : string -> Z -> bool) (e : vexpr) : option bool :=
  match e with
  | VBitSel name index => Some (rho name index)
  | VXor [] => None
  | VXor (e0 :: es) =>
      fold_left (fun acc e' => match acc, eval_vexpr rho e' with
                               | Some a, Some b => Some (xorb a b)
                               | _, _ => None
                               end) es (eval_vexpr rho e0)
  end.

(** The rendering of a leaf of a flattened [XOR] by [verilog()]. *)
Definition leaf_verilog (x : item) : vexpr :=
  match x with
  | Bit name index => Bit_verilog name index
  | Ref _ => VXor []
  end.

(** The generator whose polynomial is reduced to its 8 low bits. *)
Definition low_byte (self : CrcGen) : CrcGen :=
  {| P := P self mod 256; nrBits := nrBits self |}.

(** The command lines [crcgen.py -T -P 29], [crcgen.py -c] and
    [crcgen.py]. *)
Definition args_selftest : Args :=
  {| python := false; verilog_function := false; verilog_module := false;
     c := false; polynomial := 29; nr_bits := 8; name := "crc";
     data_param := "data"; crc_in_param := "crcIn"; crc_out_param := "crcOut";
     static := false; inline := false; test := true |}.

Definition args_c : Args :=
  {| python := false; verilog_function := false; verilog_module := false;
     c := true; polynomial := 7; nr_bits := 8; name := "crc";
     data_param := "data"; crc_in_param := "crcIn"; crc_out_param := "crcOut";
     static := false; inline := false; test := false |}.

(** * Properties *)

(** ** Equality and membership of values *)

Lemma py_eq_true (x y : item) : py_eq x y = true <-> x = y.
Proof.
  destruct x as [n i|l], y as [n' i'|l']; simpl;
    rewrite ?andb_true_iff, ?String.eqb_eq, ?Z.eqb_eq, ?Nat.eqb_eq;
    split; intros H; try discriminate; try congruence.
  - destruct H; congruence.
  - inversion H; auto.
Qed.

Lemma py_in_true (x : item) (l : list item) : py_in x l = true <-> x ∈ l.
Proof.
  unfold py_in. induction l as [|y l IH]; simpl.
  - split; [discriminate | intros H; inversion H].
  - rewrite orb_true_iff, IH, py_eq_true, elem_of_cons.
    split; intros [H|H]; auto.
Qed.

Lemma land_1_odd (z : Z) : negb (Z.eqb (Z.land z 1) 0) = Z.odd z.
Proof.
  change 1%Z with (Z.ones 1) at 1. rewrite Z.land_ones by lia.
  rewrite Z.pow_1_r, <- Z.bit0_odd, <- (Z.bit0_mod z).
  destruct (Z.testbit z 0); reflexivity.
Qed.

(** ** Construction of an [XOR] *)

Lemma XOR_init_ok (items : list item) (h : heap) :
  2 <= length items -> XOR_init items h = Ok (Ref (length h)) (h ++ [items]).
Proof.
  intros H. unfold XOR_init, bind, assert.
  destruct (Nat.leb_spec 2 (length items)); [reflexivity | lia].
Qed.

Lemma XOR_init_short (items : list item) (h : heap) :
  length items < 2 -> XOR_init items h = Raise AssertionError.
Proof.
  intros H. unfold XOR_init, bind, assert.
  destruct (Nat.leb_spec 2 (length items)); [lia | reflexivity].
Qed.

(** C10: constructing an ExclusiveOr node with fewer than 2 child
    expressions fails at once with an [AssertionError]; with 2 or more
    children it succeeds, and returns a new object that owns exactly the
    given children, leaving every existing object as it was. *)
Theorem XOR_init_arity (items : list item) (h : heap) :
  (length items < 2 -> XOR_init items h = Raise AssertionError) /\
  (2 <= length items ->
   XOR_init items h = Ok (Ref (length h)) (h ++ [items]) /\
   (h ++ [items]) !! length h = Some items).
Proof.
  split; intros H.
  - apply XOR_init_short, H.
  - split; [apply XOR_init_ok, H |].
    rewrite lookup_app_r by lia. rewrite Nat.sub_diag. reflexivity.
Qed.

Lemma XOR_init_arity_witness :
  XOR_init [Bit "a" 0] [] = Raise AssertionError /\
  XOR_init [Bit "a" 0; Bit "b" 0] [] =
    Ok (Ref 0) [[Bit "a" 0; Bit "b" 0]].
Proof.
  split.
  - apply (proj1 (XOR_init_arity [Bit "a" 0] [])). simpl. lia.
  - apply (proj2 (XOR_init_arity [Bit "a" 0; Bit "b" 0] [])). simpl. lia.
Defined.

(** ** Unsupported widths and invalid polynomials *)

Lemma CrcGen_init_odd (P0 nrBits0 : Z) (h : heap) :
  Z.odd P0 = true ->
  CrcGen_init P0 nrBits0 h = Ok {| P := P0; nrBits := nrBits0 |} h.
Proof.
  intros H. unfold CrcGen_init, bind, assert. rewrite land_1_odd, H. reflexivity.
Qed.

Lemma gen_wrong_width (fuel : nat) (self : CrcGen) (dataVarName crcVarName : string)
    (h : heap) :
  nrBits self <> 8%Z ->
  gen fuel self dataVarName crcVarName h = Raise AssertionError.
Proof.
  intros H. unfold gen, bind, assert.
  destruct (Z.eqb_spec (nrBits self) 8); [contradiction | reflexivity].
Qed.

(** C8: for every register width other than 8 and every odd polynomial, the
    generator object is constructed, and generation then fails with an
    [AssertionError] whatever the emitter ([__gen] itself, [genPython],
    [genVerilog], [genC]) and the amount of recursion allowed: no text is
    produced. *)
Theorem generation_fails_for_unsupported_width
    (P0 nrBits0 : Z) (fuel : nat) (h : heap)
    (funcName crcVarName dataVarName outCrcName : string)
    (genFunction static0 inline0 : bool) :
  Z.odd P0 = true -> nrBits0 <> 8%Z ->
  exists self,
    CrcGen_init P0 nrBits0 h = Ok self h /\
    P self = P0 /\ nrBits self = nrBits0 /\
    gen fuel self dataVarName crcVarName h = Raise AssertionError /\
    genPython fuel self funcName crcVarName dataVarName h = Raise AssertionError /\
    genVerilog fuel self genFunction funcName dataVarName crcVarName outCrcName h
      = Raise AssertionError /\
    genC fuel self funcName crcVarName dataVarName static0 inline0 h
      = Raise AssertionError.
Proof.
  intros Hodd Hw. eexists. split; [apply CrcGen_init_odd, Hodd |].
  simpl. repeat split.
  - apply gen_wrong_width; simpl; exact Hw.
  - unfold genPython, bind. rewrite gen_wrong_width by (simpl; exact Hw). reflexivity.
  - unfold genVerilog, bind. rewrite gen_wrong_width by (simpl; exact Hw). reflexivity.
  - unfold genC, bind. rewrite gen_wrong_width by (simpl; exact Hw). reflexivity.
Qed.

Lemma generation_fails_for_unsupported_width_witness :
  exists self,
    CrcGen_init 7 16 [] = Ok self [] /\
    P self = 7%Z /\ nrBits self = 16%Z /\
    gen 9 self "data" "crc" [] = Raise AssertionError /\
    genPython 9 self "crc" "crc" "data" [] = Raise AssertionError /\
    genVerilog 9 self true "crc" "data" "crc" "outCrc" [] = Raise AssertionError /\
    genC 9 self "crc" "crc" "data" false false [] = Raise AssertionError.
Proof.
  apply (generation_fails_for_unsupported_width 7 16 9 []
           "crc" "crc" "data" "outCrc" true false false).
  - reflexivity.
  - lia.
Defined.

(** C9: a polynomial that is even, or that exceeds [2^width - 1], is
    rejected by the check at the start of the program: the run ends with
    the exception ["Invalid polynomial."] and exit status 1, nothing is
    written on standard output and no generator is constructed or run (the
    outcome does not depend on the fuel nor on the selected mode).  The
    constructor of the generator refuses an even polynomial as well. *)
Theorem invalid_polynomial_rejected (fuel : nat) (args : Args) (h : heap) :
  (Z.even (polynomial args) = true \/
   (0 <= nr_bits args /\ polynomial args > 2 ^ nr_bits args - 1))%Z ->
  validate args = inl (Exception "Invalid polynomial.") /\
  main fuel args = {| stdout := [];
                      stderr := Some (Exception "Invalid polynomial.");
                      exit_status := Some 1%Z |} /\
  (Z.even (polynomial args) = true ->
   CrcGen_init (polynomial args) (nr_bits args) h = Raise AssertionError).
Proof.
  intros H.
  assert (Hv : validate args = inl (Exception "Invalid polynomial.")).
  { unfold validate. rewrite land_1_odd, <- Z.negb_even.
    destruct (Z.even (polynomial args)) eqn:He; simpl; [reflexivity |].
    destruct H as [H | [Hn Hp]]; [discriminate |].
    destruct (Z.ltb_spec (nr_bits args) 0); [lia |].
    rewrite Z.shiftl_1_l.
    destruct (Z.gtb_spec (polynomial args) (2 ^ nr_bits args - 1)); [reflexivity | lia]. }
  split; [exact Hv |]. split.
  - unfold main. rewrite Hv. reflexivity.
  - intros He. unfold CrcGen_init, bind, assert.
    rewrite land_1_odd, <- Z.negb_even, He. reflexivity.
Qed.

Lemma invalid_polynomial_rejected_witness :
  validate args_0x08 = inl (Exception "Invalid polynomial.") /\
  main 9 args_0x08 = {| stdout := [];
                        stderr := Some (Exception "Invalid polynomial.");
                        exit_status := Some 1%Z |} /\
  (Z.even (polynomial args_0x08) = true ->
   CrcGen_init (polynomial args_0x08) (nr_bits args_0x08) [] = Raise AssertionError).
Proof.
  apply (invalid_polynomial_rejected 9 args_0x08 []).
  left. reflexivity.
Defined.

(** ** The bare-[Bit] branch of [Word.flatten] *)

Lemma flatten_loop_bare_bit (fuel : nat) (items : list item) :
  Exists (fun x => isinstance_XOR x = false) items ->
  forall (newItems : list item) (h : heap) (w' : list item) (h' : heap),
    flatten_loop fuel items newItems h <> Ok w' h'.
Proof.
  induction 1 as [x rest Hx | x rest Hex IH]; intros newItems h w' h'; simpl.
  - rewrite Hx. discriminate.
  - destruct (isinstance_XOR x); [| discriminate].
    destruct (allBitsRecursive fuel h x) as [bits|]; [| discriminate].
    unfold bind. destruct (XOR_init bits h) as [y h1| |]; try discriminate.
    apply IH.
Qed.

(** C4 (what the code does): on a word that holds a bare [Bit], [flatten]
    does not pass the element through: reaching it raises [NameError] for
    the undefined name [bit].  Shown on the word made of the single bit
    [Bit("a", 0)], and on a word whose bare bit follows an [XOR]. *)
Theorem flatten_bare_bit_raises :
  Word_flatten 9 (Word_init [Bit "a" 0] true) [] = Raise (NameError "bit") /\
  Word_flatten 9 (Word_init [Bit "a" 0; Ref 0] true) [[Bit "a" 0; Bit "b" 0]]
    = Raise (NameError "bit").
Proof. split; reflexivity. Qed.

(** ** [XOR.optimize] *)

Lemma odd_of_nat (n : nat) : Z.odd (Z.of_nat n) = Nat.odd n.
Proof.
  induction n as [|n IH]; [reflexivity |].
  rewrite Nat2Z.inj_succ, Z.odd_succ, Nat.odd_succ, <- Z.negb_odd, <- Nat.negb_odd.
  f_equal. exact IH.
Qed.

Lemma occurrences_cons (x y : item) (l : list item) :
  occurrences x (y :: l) = (if decide (y = x) then 1 else 0) + occurrences x l.
Proof.
  unfold occurrences. rewrite filter_cons. destruct (decide (y = x)); reflexivity.
Qed.

Lemma occurrences_app (x : item) (l1 l2 : list item) :
  occurrences x (l1 ++ l2) = occurrences x l1 + occurrences x l2.
Proof. unfold occurrences. rewrite filter_app, length_app. reflexivity. Qed.

Lemma occurrences_0 (x : item) (l : list item) :
  x ∉ l -> occurrences x l = 0.
Proof.
  induction l as [|y l IH]; intros H; [reflexivity |].
  rewrite occurrences_cons. rewrite not_elem_of_cons in H. destruct H as [H1 H2].
  destruct (decide (y = x)); [congruence |]. rewrite IH; auto.
Qed.

Lemma occurrences_pos (x : item) (l : list item) :
  x ∈ l -> 0 < occurrences x l.
Proof.
  induction l as [|y l IH]; intros H; [inversion H |].
  rewrite occurrences_cons. destruct (decide (y = x)); [lia |].
  apply elem_of_cons in H. destruct H as [H|H]; [congruence |].
  specialize (IH H). lia.
Qed.

Lemma occurrences_NoDup (x : item) (l : list item) :
  NoDup l -> x ∈ l -> occurrences x l = 1.
Proof.
  induction 1 as [|y l Hy Hnd IH]; intros H; [inversion H |].
  rewrite occurrences_cons. destruct (decide (y = x)) as [->|Hne].
  - rewrite occurrences_0; auto.
  - apply elem_of_cons in H. destruct H as [H|H]; [congruence | auto].
Qed.

Lemma count_equal_bits_occurrences (x : item) (l : list item) :
  isinstance_Bit x = true ->
  count_equal_bits x l = Z.of_nat (occurrences x l).
Proof.
  intros Hx. unfold count_equal_bits.
  assert (G : forall a, fold_left Z.add
            (map (fun i => if isinstance_Bit i && py_eq i x then 1%Z else 0%Z) l) a
            = (a + Z.of_nat (occurrences x l))%Z).
  { induction l as [|y l IH]; intros a; simpl.
    - unfold occurrences. simpl. lia.
    - rewrite IH, occurrences_cons. destruct (decide (y = x)) as [->|Hne].
      + rewrite Hx. rewrite (proj2 (py_eq_true x x) eq_refl). simpl. lia.
      + destruct (py_eq y x) eqn:E.
        * apply py_eq_true in E. contradiction.
        * rewrite andb_false_r. simpl. lia. }
  rewrite G. lia.
Qed.

Lemma optimize_step_spec (L newItems : list item) (x : item) :
  optimize_step L newItems x =
  if decide (x ∈ newItems) then newItems
  else if survives L x then newItems ++ [x] else newItems.
Proof.
  unfold optimize_step, survives.
  destruct (decide (x ∈ newItems)) as [Hin|Hin].
  - rewrite (proj2 (py_in_true x newItems) Hin). reflexivity.
  - destruct (py_in x newItems) eqn:E; [apply py_in_true in E; contradiction |].
    destruct (isinstance_Bit x) eqn:Hb; simpl; [| reflexivity].
    rewrite count_equal_bits_occurrences by exact Hb.
    rewrite Zmod_odd, odd_of_nat.
    destruct (Nat.odd (occurrences x L)); reflexivity.
Qed.

Lemma first_occurrences_elem (x : item) (l : list item) :
  x ∈ first_occurrences l <-> x ∈ l.
Proof.
  induction l as [|y l IH]; simpl; [reflexivity |].
  rewrite !elem_of_cons, list_elem_of_filter, IH.
  destruct (decide (x = y)); tauto.
Qed.

Lemma first_occurrences_NoDup (l : list item) : NoDup (first_occurrences l).
Proof.
  induction l as [|y l IH]; simpl; constructor.
  - rewrite list_elem_of_filter. tauto.
  - apply NoDup_filter, IH.
Qed.

Lemma first_occurrences_snoc (l : list item) (x : item) :
  first_occurrences (l ++ [x]) =
  if decide (x ∈ l) then first_occurrences l else first_occurrences l ++ [x].
Proof.
  induction l as [|y l IH]; simpl.
  - destruct (decide (x ∈ [])) as [H|H]; [inversion H | reflexivity].
  - rewrite IH. destruct (decide (x ∈ l)) as [H|H].
    + rewrite decide_True by (apply elem_of_cons; auto). reflexivity.
    + rewrite filter_app, filter_cons, filter_nil.
      destruct (decide (x <> y)) as [Hne|Heq].
      * rewrite decide_False; [reflexivity |].
        rewrite elem_of_cons. intros [E|E]; [congruence | contradiction].
      * assert (x = y) by (destruct (decide (x = y)); [auto | contradiction]).
        subst y. rewrite decide_True by (apply elem_of_cons; auto).
        rewrite app_nil_r. reflexivity.
Qed.

Lemma filter_all (Q : item -> Prop) `{!forall x, Decision (Q x)} (l : list item) :
  (forall x, x ∈ l -> Q x) -> filter Q l = l.
Proof.
  induction l as [|y l IH]; intros Hall; [reflexivity |].
  rewrite filter_cons, decide_True by (apply Hall, elem_of_cons; auto).
  f_equal. apply IH. intros x Hx. apply Hall, elem_of_cons. auto.
Qed.

Lemma first_occurrences_id (l : list item) :
  NoDup l -> first_occurrences l = l.
Proof.
  induction 1 as [|y l Hy Hnd IH]; simpl; [reflexivity |].
  rewrite IH. f_equal. apply filter_all. intros x Hx ->. contradiction.
Qed.

(** The loop of [optimize] run on a prefix of the operands. *)
Lemma optimize_loop_spec (L pre : list item) :
  fold_left (optimize_step L) pre [] =
  filter (fun x => survives L x) (first_occurrences pre).
Proof.
  induction pre as [|x pre IH] using rev_ind; [reflexivity |].
  rewrite fold_left_app. simpl. rewrite IH, optimize_step_spec.
  rewrite first_occurrences_snoc.
  destruct (decide (x ∈ pre)) as [Hpre|Hpre].
  - destruct (decide (x ∈ filter (fun x => survives L x) (first_occurrences pre)))
      as [Hin|Hin]; [reflexivity |].
    destruct (survives L x) eqn:Hs; [| reflexivity].
    exfalso. apply Hin. apply list_elem_of_filter. split.
    + rewrite Hs. exact I.
    + apply first_occurrences_elem, Hpre.
  - rewrite decide_False.
    + rewrite filter_app, filter_cons, filter_nil.
      destruct (survives L x) eqn:Hs.
      * rewrite decide_True by exact I. reflexivity.
      * rewrite decide_False by (intros []). rewrite app_nil_r. reflexivity.
    + rewrite list_elem_of_filter, first_occurrences_elem. tauto.
Qed.

Lemma optimize_items_spec (L : list item) :
  optimize_items L = filter (fun x => survives L x) (first_occurrences L).
Proof. apply optimize_loop_spec. Qed.

Lemma optimize_items_NoDup (L : list item) : NoDup (optimize_items L).
Proof. rewrite optimize_items_spec. apply NoDup_filter, first_occurrences_NoDup. Qed.

Lemma optimize_items_elem (L : list item) (x : item) :
  x ∈ optimize_items L <-> x ∈ L /\ survives L x = true.
Proof.
  rewrite optimize_items_spec, list_elem_of_filter, first_occurrences_elem.
  rewrite Is_true_true. tauto.
Qed.

Lemma optimize_items_idempotent (L : list item) :
  optimize_items (optimize_items L) = optimize_items L.
Proof.
  rewrite (optimize_items_spec (optimize_items L)).
  rewrite first_occurrences_id by apply optimize_items_NoDup.
  apply filter_all. intros x Hx. unfold survives.
  rewrite (occurrences_NoDup x _ (optimize_items_NoDup L) Hx).
  destruct (isinstance_Bit x); exact I.
Qed.

(** C3, amended: [optimize] replaces the operand list [L] of the object by
    the first occurrences, in the order of [L], of the operands that
    survive.  A bit survives exactly when it occurs an odd number of times
    in [L], bits being the same when name and index agree; an operand that
    is not a bit always survives, but like a bit only once: a later operand
    that is the very same object is dropped, while distinct objects are
    never merged.  No operand occurs twice in the result. *)
Theorem XOR_optimize_result (l : loc) (L : list item) (h : heap) :
  h !! l = Some L ->
  XOR_optimize l h = Ok tt (<[l := optimize_items L]> h) /\
  optimize_items L = filter (fun x => survives L x) (first_occurrences L) /\
  NoDup (optimize_items L) /\
  (forall name index,
     Bit name index ∈ optimize_items L <->
     Nat.odd (occurrences (Bit name index) L) = true) /\
  (forall l', Ref l' ∈ optimize_items L <-> Ref l' ∈ L).
Proof.
  intros Hl. split; [| split; [| split; [| split]]].
  - unfold XOR_optimize. rewrite Hl. reflexivity.
  - apply optimize_items_spec.
  - apply optimize_items_NoDup.
  - intros n i. rewrite optimize_items_elem. unfold survives. simpl. split.
    + intros [_ H]. exact H.
    + intros H. split; [| exact H].
      destruct (decide (Bit n i ∈ L)) as [Hin|Hin]; [exact Hin |].
      rewrite occurrences_0 in H by exact Hin. discriminate.
  - intros l'. rewrite optimize_items_elem. unfold survives. simpl. tauto.
Qed.

Lemma XOR_optimize_result_witness :
  XOR_optimize 0 [[Bit "a" 0; Ref 7; Bit "b" 1; Bit "a" 0; Bit "b" 1; Bit "b" 1]]
  = Ok tt [[Ref 7; Bit "b" 1]].
Proof.
  apply (XOR_optimize_result 0
           [Bit "a" 0; Ref 7; Bit "b" 1; Bit "a" 0; Bit "b" 1; Bit "b" 1]
           [[Bit "a" 0; Ref 7; Bit "b" 1; Bit "a" 0; Bit "b" 1; Bit "b" 1]]).
  reflexivity.
Defined.

(** C3 as stated fails: the object [XOR(z, z)], whose two operands are the
    same [XOR] object [z], is optimized to the single operand [z]; the
    operand that is not a bit is not kept every time it occurs. *)
Lemma XOR_optimize_drops_repeated_object :
  let h := [[Bit "a" 0; Bit "b" 0]; [Ref 0; Ref 0]] in
  XOR_optimize 1 h = Ok tt [[Bit "a" 0; Bit "b" 0]; [Ref 0]] /\
  ~ keeps_every_non_bit [Ref 0; Ref 0] (optimize_items [Ref 0; Ref 0]).
Proof.
  split; [reflexivity |].
  intros H. specialize (H (Ref 0) eq_refl). vm_compute in H. discriminate.
Qed.

(** C6: [optimize] is idempotent: running it twice on an [XOR] object
    leaves the store, hence the operand list of the object, as running it
    once does. *)
Theorem XOR_optimize_idempotent (l : loc) (h : heap) :
  (let* _ := XOR_optimize l in XOR_optimize l) h = XOR_optimize l h /\
  forall L, optimize_items (optimize_items L) = optimize_items L.
Proof.
  split; [| apply optimize_items_idempotent].
  unfold bind, XOR_optimize.
  destruct (h !! l) as [L|] eqn:Hl; [| reflexivity].
  rewrite list_lookup_insert_eq by (eapply lookup_lt_Some; eauto).
  rewrite list_insert_insert_eq, optimize_items_idempotent. reflexivity.
Qed.

(** ** The unrolling loop of [__gen] *)

Lemma shift_land_testbit (z n : Z) :
  (0 <= n)%Z -> negb (Z.eqb (Z.land (Z.shiftr z n) 1) 0) = Z.testbit z n.
Proof.
  intros H. rewrite land_1_odd, <- Z.bit0_odd, Z.shiftr_spec by lia.
  f_equal.
Qed.

Lemma is_XOR_of_prefix (h h' : heap) (x : item) (ops : list item) :
  h `prefix_of` h' -> is_XOR_of h x ops -> is_XOR_of h' x ops.
Proof.
  intros Hp (l & -> & Hl). exists l. split; [reflexivity |].
  eapply prefix_lookup_Some; eauto.
Qed.

Lemma combine_spec_prefix (P0 : Z) (h h' : heap) (a b : item) (n : Z) (x : item) :
  h `prefix_of` h' -> combine_spec P0 h a b n x -> combine_spec P0 h' a b n x.
Proof.
  unfold combine_spec. intros Hp. destruct (Z.testbit P0 n); [| auto].
  apply is_XOR_of_prefix, Hp.
Qed.

Lemma XOR_init_pair (a b : item) (h : heap) :
  exists x h', XOR_init [a; b] h = Ok x h' /\ h `prefix_of` h' /\
               is_XOR_of h' x [a; b].
Proof.
  exists (Ref (length h)), (h ++ [[a; b]]). split; [| split].
  - apply XOR_init_ok. simpl. lia.
  - apply prefix_app_r. reflexivity.
  - exists (length h). split; [reflexivity |]. apply list_lookup_middle. reflexivity.
Qed.

Lemma Word_getitem_ok (w : list item) (i : nat) (x : item) (h : heap) :
  w !! i = Some x -> Word_getitem w (Z.of_nat i) h = Ok x h.
Proof.
  intros H. unfold Word_getitem.
  pose proof (lookup_lt_Some _ _ _ H) as Hlt.
  destruct (Z.ltb_spec (Z.of_nat i) 0); [lia |].
  destruct (Z.leb_spec 0 (Z.of_nat i)); [| lia].
  destruct (Z.ltb_spec (Z.of_nat i) (Z.of_nat (length w))); [| lia].
  simpl. rewrite Nat2Z.id, H. reflexivity.
Qed.

Lemma p_spec (self : CrcGen) (a b : item) (bitNr : Z) (h : heap) :
  (0 <= bitNr)%Z ->
  exists x h', p self (Some a) b bitNr h = Ok x h' /\ h `prefix_of` h' /\
               combine_spec (P self) h' a b bitNr x.
Proof.
  intros Hn. unfold p, combine_spec. rewrite shift_land_testbit by exact Hn.
  destruct (Z.ltb_spec bitNr 0); [lia |].
  destruct (Z.testbit (P self) bitNr).
  - apply XOR_init_pair.
  - exists a, h. split; [reflexivity |]. split; reflexivity.
Qed.

Lemma p_at_Some (self : CrcGen) (prev : list item) (i : nat) (bitNr : Z)
    (a b : item) (h : heap) :
  prev !! i = Some a -> prev !! 7 = Some b ->
  p_at self prev (Some (Z.of_nat i)) bitNr h = p self (Some a) b bitNr h.
Proof.
  intros Ha Hb. unfold p_at, bind.
  rewrite (Word_getitem_ok _ _ _ _ Ha). unfold ret.
  change 7%Z with (Z.of_nat 7). rewrite (Word_getitem_ok _ _ _ _ Hb). reflexivity.
Qed.

Lemma p_at_None (self : CrcGen) (prev : list item) (bitNr : Z) (b : item) (h : heap) :
  prev !! 7 = Some b ->
  p_at self prev None bitNr h = Ok b h.
Proof.
  intros Hb. unfold p_at, bind, ret.
  change 7%Z with (Z.of_nat 7). rewrite (Word_getitem_ok _ _ _ _ Hb). reflexivity.
Qed.

Ltac getitem :=
  match goal with
  | |- context [Word_getitem ?w ?z ?h] =>
      let n := eval compute in (Z.to_nat z) in
      let x := eval compute in (default (Ref 0) (w !! n)) in
      rewrite (Word_getitem_ok w n x h eq_refl : Word_getitem w z h = Ok x h)
  end.

Ltac alloc_pair :=
  match goal with
  | |- context [XOR_init [?a; ?b] ?h] =>
      rewrite (XOR_init_ok [a; b] h) by (simpl; lia)
  end.

Lemma gen_base_eq (dataVarName crcVarName : string) (h : heap) :
  gen_base dataVarName crcVarName h =
  Ok (map (fun i => Ref (length h + i)) [7; 6; 5; 4; 3; 2; 1; 0])
     (h ++ map (fun i => [Bit dataVarName i; Bit crcVarName i]) reversed_range8).
Proof.
  unfold gen_base, reversed_range8. simpl mapM. simpl map. simpl Word_init. unfold bind, ret.
  do 8 (do 2 getitem; alloc_pair).
  rewrite <- !app_assoc. simpl. rewrite !length_app. simpl.
  repeat f_equal; lia.
Qed.

Lemma lookup_app_plus (h k : heap) (i : nat) :
  (h ++ k) !! (length h + i) = k !! i.
Proof.
  rewrite lookup_app_r by lia. f_equal. lia.
Qed.

Lemma gen_base_spec (dataVarName crcVarName : string) (h : heap) :
  exists base h', gen_base dataVarName crcVarName h = Ok base h' /\
                  h `prefix_of` h' /\ base_spec dataVarName crcVarName h' base.
Proof.
  eexists _, _. split; [apply gen_base_eq |]. split.
  - apply prefix_app_r. reflexivity.
  - split; [reflexivity |]. intros i Hi.
    do 8 (destruct i as [|i];
          [eexists; split; [reflexivity |]; eexists; split; [reflexivity |];
           rewrite lookup_app_plus; reflexivity |]).
    lia.
Qed.

Lemma length_8 (w : list item) :
  length w = 8 ->
  exists a0 a1 a2 a3 a4 a5 a6 a7, w = [a0; a1; a2; a3; a4; a5; a6; a7].
Proof.
  intros H. do 8 (destruct w as [|? w]; [discriminate |]).
  destruct w; [| discriminate]. eauto 10.
Qed.

Ltac p_step H :=
  match goal with
  | |- context [p_at ?self ?prev (Some ?z) ?n ?h] =>
      let i := eval compute in (Z.to_nat z) in
      let a := eval compute in (default (Ref 0) (prev !! i)) in
      let b := eval compute in (default (Ref 0) (prev !! 7)) in
      rewrite (p_at_Some self prev i n a b h eq_refl eq_refl
               : p_at self prev (Some z) n h = p self (Some a) b n h);
      let x := fresh "x" in let h' := fresh "h" in
      let E := fresh "E" in let Hp := fresh "Hp" in
      destruct (p_spec self a b n h ltac:(lia)) as (x & h' & E & Hp & H);
      rewrite E
  end.

Lemma gen_round_spec (self : CrcGen) (prev : list item) (h : heap) :
  length prev = 8 ->
  exists new h', gen_round self prev h = Ok new h' /\
                 h `prefix_of` h' /\ round_spec (P self) h' prev new.
Proof.
  intros Hlen.
  destruct (length_8 prev Hlen) as (a0 & a1 & a2 & a3 & a4 & a5 & a6 & a7 & ->).
  unfold gen_round, bind.
  p_step C7. p_step C6. p_step C5. p_step C4. p_step C3. p_step C2. p_step C1.
  rewrite (p_at_None self _ 0 a7) by reflexivity.
  eexists _, _. split; [reflexivity |].
  split; [repeat (etrans; [eassumption |]); reflexivity |].
  split; [reflexivity |]. split.
  - intros i Hi.
    destruct i as [|i]; [lia |].
    do 7 (destruct i as [|i];
          [eexists _, _, _; repeat (split; [reflexivity |]);
           eapply combine_spec_prefix; [| eassumption];
           repeat (first [reflexivity | etrans; [eassumption |]]) |]).
    lia.
  - exists a7. split; reflexivity.
Qed.

Lemma round_spec_prefix (P0 : Z) (h h' : heap) (prev new : list item) :
  h `prefix_of` h' -> round_spec P0 h prev new -> round_spec P0 h' prev new.
Proof.
  intros Hp (Hlen & Hpos & H0). split; [exact Hlen |]. split; [| exact H0].
  intros i Hi. destruct (Hpos i Hi) as (a & b & x & Ha & Hb & Hx & Hc).
  exists a, b, x. repeat (split; [assumption |]).
  eapply combine_spec_prefix; eauto.
Qed.

Lemma base_spec_prefix (dataVarName crcVarName : string) (h h' : heap)
    (base : list item) :
  h `prefix_of` h' -> base_spec dataVarName crcVarName h base ->
  base_spec dataVarName crcVarName h' base.
Proof.
  intros Hp (Hlen & Hpos). split; [exact Hlen |].
  intros i Hi. destruct (Hpos i Hi) as (x & Hx & Hc).
  exists x. split; [assumption |]. eapply is_XOR_of_prefix; eauto.
Qed.

(** The words computed by [n] iterations of the loop: [prev] followed by one
    word per iteration, each derived from the one before it. *)
Lemma gen_rounds_spec (self : CrcGen) (n : nat) :
  forall (prev : list item) (h : heap),
    length prev = 8 ->
    exists (ws : list (list item)) (word : list item) (h' : heap),
      gen_rounds self n prev h = Ok word h' /\
      h `prefix_of` h' /\
      length ws = n /\
      (prev :: ws) !! n = Some word /\
      forall k w1 w2, (prev :: ws) !! k = Some w1 -> (prev :: ws) !! S k = Some w2 ->
                      round_spec (P self) h' w1 w2.
Proof.
  induction n as [|n IH]; intros prev h Hlen.
  - exists [], prev, h. split; [reflexivity |]. split; [reflexivity |].
    split; [reflexivity |]. split; [reflexivity |].
    intros k w1 w2 _ H. destruct k; discriminate.
  - destruct (gen_round_spec self prev h Hlen) as (new & h1 & E & Hp & Hr).
    destruct (IH new h1 (proj1 Hr)) as (ws & word & h' & E' & Hp' & Hws & Hlast & Hchain).
    exists (new :: ws), word, h'. simpl. unfold bind. rewrite E.
    split; [exact E' |]. split; [etrans; eassumption |].
    split; [simpl; f_equal; exact Hws |]. split; [exact Hlast |].
    intros [|k] w1 w2 H1 H2.
    + simpl in H1, H2. inversion H1; inversion H2; subst.
      eapply round_spec_prefix; eauto.
    + eapply Hchain; eauto.
Qed.

Lemma gen_unroll_chain (self : CrcGen) (dataVarName crcVarName : string)
    (h : heap) :
  exists (ws : list (list item)) (base word : list item) (h' : heap),
    gen_unroll self dataVarName crcVarName h = Ok word h' /\
    length ws = 9 /\
    ws !! 0 = Some base /\
    ws !! 8 = Some word /\
    base_spec dataVarName crcVarName h' base /\
    forall k prev new, ws !! k = Some prev -> ws !! S k = Some new ->
                       round_spec (P self) h' prev new.
Proof.
  destruct (gen_base_spec dataVarName crcVarName h) as (base & h0 & E0 & Hp0 & Hb).
  destruct (gen_rounds_spec self 8 base h0 (proj1 Hb))
    as (ws & word & h' & E & Hp & Hws & Hlast & Hchain).
  exists (base :: ws), base, word, h'.
  split; [unfold gen_unroll, bind; rewrite E0; exact E |].
  split; [simpl; f_equal; exact Hws |].
  split; [reflexivity |]. split; [exact Hlast |].
  split; [eapply base_spec_prefix; eauto | exact Hchain].
Qed.


(** C2: the unrolling of [__gen] follows the specified steps.  The word
    handed to [flatten] is the last of nine words: the first is the base
    word, whose position [i] is [ExclusiveOr(dataBit_i, crcBit_i)]; each of
    the eight following ones is derived from its predecessor [prev] by
    [new[i] = ExclusiveOr(prev[i-1], prev[7])] when bit [i] of the
    polynomial is set and [new[i] = prev[i-1]] otherwise, for [i] from 7
    down to 1, and [new[0] = prev[7]]. *)
Theorem gen_unroll_structure (self : CrcGen) (dataVarName crcVarName : string)
    (h : heap) :
  exists (ws : list (list item)) (base word : list item) (h' : heap),
    gen_unroll self dataVarName crcVarName h = Ok word h' /\
    length ws = 9 /\
    ws !! 0 = Some base /\
    ws !! 8 = Some word /\
    base_spec dataVarName crcVarName h' base /\
    forall k prev new, ws !! k = Some prev -> ws !! S k = Some new ->
                       round_spec (P self) h' prev new.
Proof. apply gen_unroll_chain. Qed.

Lemma gen_unroll_structure_witness :
  exists (ws : list (list item)) (base word : list item) (h' : heap),
    gen_unroll {| P := 7; nrBits := 8 |} "data" "crc" [] = Ok word h' /\
    length ws = 9 /\
    ws !! 0 = Some base /\
    ws !! 8 = Some word /\
    base_spec "data" "crc" h' base /\
    forall k prev new, ws !! k = Some prev -> ws !! S k = Some new ->
                       round_spec 7 h' prev new.
Proof.
  exact (gen_unroll_structure {| P := 7; nrBits := 8 |} "data" "crc" []).
Defined.

(** ** The formulas of the unrolled word *)

Lemma yield_from_ext (rec rec' : item -> option (list item)) (items bits : list item) :
  (forall x bs, x ∈ items -> rec x = Some bs -> rec' x = Some bs) ->
  yield_from rec items = Some bits -> yield_from rec' items = Some bits.
Proof.
  revert bits. induction items as [|x items IH]; intros bits Hext; simpl; [auto |].
  destruct (rec x) as [bs|] eqn:Ex; [| discriminate].
  fold (yield_from rec items). fold (yield_from rec' items).
  destruct (yield_from rec items) as [rest|] eqn:Er; [| discriminate].
  intros E. rewrite (Hext x bs) by (auto; apply elem_of_cons; auto).
  rewrite (IH rest); [exact E | | reflexivity].
  intros y ys Hy. apply Hext, elem_of_cons. auto.
Qed.

Lemma allBitsRecursive_mono (n : nat) :
  forall (h : heap) (x : item) (bits : list item) (n' : nat) (h' : heap),
    allBitsRecursive n h x = Some bits -> n <= n' -> h `prefix_of` h' ->
    allBitsRecursive n' h' x = Some bits.
Proof.
  induction n as [|n IH]; intros h x bits n' h' E Hn Hp.
  - destruct x; [destruct n'; exact E | discriminate].
  - destruct x as [name index|l]; [destruct n'; exact E |].
    destruct n' as [|n']; [lia |]. simpl in *.
    destruct (h !! l) as [items|] eqn:Hl; [| discriminate].
    rewrite (prefix_lookup_Some _ _ _ _ Hl Hp).
    eapply yield_from_ext; [| exact E].
    intros y ys _ Hy. eapply IH; eauto. lia.
Qed.

Lemma land_128_testbit (x : Z) :
  negb (Z.eqb (Z.land x 128) 0) = Z.testbit x 7.
Proof.
  destruct (Z.testbit x 7) eqn:E.
  - destruct (Z.eqb_spec (Z.land x 128) 0) as [H0|]; [| reflexivity].
    assert (Hb : Z.testbit (Z.land x 128) 7 = true)
      by (rewrite Z.land_spec, E; reflexivity).
    rewrite H0 in Hb. discriminate.
  - replace (Z.land x 128) with 0%Z; [reflexivity |].
    symmetry. apply Z.bits_inj_0. intros m. rewrite Z.land_spec.
    change 128%Z with (2 ^ 7)%Z. rewrite Z.pow2_bits_eqb by lia.
    destruct (Z.eqb_spec 7 m) as [<-|]; [rewrite E; reflexivity | apply andb_false_r].
Qed.

Lemma crc8_step_testbit (P0 x i : Z) :
  (0 <= i < 8)%Z ->
  Z.testbit (crc8_step P0 x) i =
  xorb (Z.testbit x (i - 1)) (Z.testbit x 7 && Z.testbit P0 i).
Proof.
  intros Hi. unfold crc8_step.
  rewrite Z.land_spec, Z.lxor_spec, Z.shiftl_spec by lia.
  change 255%Z with (Z.ones 8). rewrite Z.ones_spec_low by lia.
  rewrite land_128_testbit, andb_true_r.
  destruct (Z.testbit x 7); simpl; [reflexivity |].
  rewrite Z.bits_0. reflexivity.
Qed.

Lemma formula_of_fuel (dataVarName crcVarName : string) (P0 : Z) (n : nat)
    (h : heap) (x : item) (f : Z -> Z -> bool) :
  formula_of dataVarName crcVarName P0 n h x f ->
  formula_of dataVarName crcVarName P0 (S n) h x f.
Proof.
  intros (bits & Hx & E & Hlen & Hin & Hsem). exists bits.
  split; [exact Hx |]. split; [| auto].
  eapply allBitsRecursive_mono; eauto.
Qed.

Lemma xor_all_app (v : item -> bool) (l1 l2 : list item) :
  xor_all v (l1 ++ l2) = xorb (xor_all v l1) (xor_all v l2).
Proof.
  induction l1 as [|x l1 IH]; simpl; [destruct (xor_all v l2); reflexivity |].
  rewrite IH. apply eq_sym, xorb_assoc.
Qed.

Lemma base_inv (dataVarName crcVarName : string) (P0 : Z) (h : heap)
    (base : list item) :
  base_spec dataVarName crcVarName h base ->
  word_inv dataVarName crcVarName P0 1 h base 0.
Proof.
  intros (Hlen & Hpos). split; [exact Hlen |]. intros i Hi.
  destruct (Hpos i Hi) as (x & Hx & l & -> & Hl).
  exists (Ref l). split; [exact Hx |].
  exists [Bit dataVarName (Z.of_nat i); Bit crcVarName (Z.of_nat i)].
  split; [reflexivity |]. split; [simpl; rewrite Hl; reflexivity |].
  split; [simpl; lia |]. split.
  - repeat constructor.
    + eexists _, _. split; [reflexivity |]. split; [auto | lia].
    + eexists _, _. split; [reflexivity |]. split; [auto | lia].
  - intros Hne _ c0 d0. simpl. unfold inputs.
    rewrite String.eqb_refl.
    destruct (String.eqb_spec crcVarName dataVarName) as [E|_]; [congruence |].
    rewrite xorb_false_r, Z.lxor_spec. reflexivity.
Qed.

Lemma round_inv (dataVarName crcVarName : string) (P0 : Z) (n : nat) (h : heap)
    (prev new : list item) (k : nat) :
  word_inv dataVarName crcVarName P0 n h prev k ->
  round_spec P0 h prev new ->
  word_inv dataVarName crcVarName P0 (S n) h new (S k).
Proof.
  intros (Hlen & Hprev) (Hlen' & Hpos & (b7 & Hb7 & Hnew0)).
  split; [exact Hlen' |]. intros i Hi.
  destruct (Hprev 7 ltac:(lia)) as (b7' & Hb7' & F7).
  rewrite Hb7 in Hb7'. inversion Hb7'; subst b7'. clear Hb7'.
  destruct i as [|i].
  - exists b7. split; [exact Hnew0 |].
    apply formula_of_fuel.
    destruct F7 as (bits & Hx & E & Hl & Hin & Hsem).
    exists bits. repeat (split; [assumption |]).
    intros Hne Hodd c0 d0. rewrite (Hsem Hne Hodd). simpl Nat.iter.
    rewrite crc8_step_testbit by lia.
    change (Z.of_nat 0) with 0%Z.
    rewrite Z.bit0_odd, Hodd, andb_true_r.
    rewrite (Z.testbit_neg_r _ (0 - 1)) by lia. reflexivity.
  - destruct (Hpos (S i) ltac:(lia)) as (a & b & x & Ha & Hb & Hx & Hc).
    rewrite Hb7 in Hb. inversion Hb; subst b. clear Hb.
    simpl in Ha. rewrite Nat.sub_0_r in Ha.
    destruct (Hprev i ltac:(lia)) as (a' & Ha' & Fa).
    rewrite Ha in Ha'. inversion Ha'; subst a'. clear Ha'.
    exists x. split; [exact Hx |].
    assert (Hstep : forall r : Z,
               Z.testbit (crc8_step P0 r) (Z.of_nat (S i)) =
               xorb (Z.testbit r (Z.of_nat i))
                    (Z.testbit r 7 && Z.testbit P0 (Z.of_nat (S i)))).
    { intros r. rewrite crc8_step_testbit by lia. do 2 f_equal. lia. }
    unfold combine_spec in Hc.
    destruct (Z.testbit P0 (Z.of_nat (S i))) eqn:Etap.
    + destruct Hc as (l & -> & Hl).
      destruct Fa as (bitsa & Hxa & Ea & Hla & Hina & Hsema).
      destruct F7 as (bitsb & Hxb & Eb & Hlb & Hinb & Hsemb).
      exists (bitsa ++ bitsb). split; [reflexivity |]. split.
      { simpl. rewrite Hl. simpl. rewrite Ea, Eb, app_nil_r. reflexivity. }
      split; [rewrite length_app; lia |].
      split; [apply Forall_app; auto |].
      intros Hne Hodd c0 d0. rewrite xor_all_app, (Hsema Hne Hodd), (Hsemb Hne Hodd).
      simpl Nat.iter. rewrite Hstep, andb_true_r. reflexivity.
    + subst x. apply formula_of_fuel.
      destruct Fa as (bitsa & Hxa & Ea & Hla & Hina & Hsema).
      exists bitsa. repeat (split; [assumption |]).
      intros Hne Hodd c0 d0. rewrite (Hsema Hne Hodd).
      simpl Nat.iter. rewrite Hstep, andb_false_r, xorb_false_r. reflexivity.
Qed.

Lemma chain_inv (dataVarName crcVarName : string) (P0 : Z) (h : heap)
    (ws : list (list item)) (base : list item) :
  ws !! 0 = Some base ->
  base_spec dataVarName crcVarName h base ->
  (forall k prev new, ws !! k = Some prev -> ws !! S k = Some new ->
                      round_spec P0 h prev new) ->
  forall k w, ws !! k = Some w ->
              word_inv dataVarName crcVarName P0 (S k) h w k.
Proof.
  intros H0 Hbase Hchain. induction k as [|k IH]; intros w Hw.
  - rewrite H0 in Hw. inversion Hw; subst w. apply base_inv, Hbase.
  - assert (Hk : k < length ws) by (apply lookup_lt_Some in Hw; lia).
    destruct (lookup_lt_is_Some_2 ws k Hk) as (prev & Hprev).
    eapply round_inv; [apply IH, Hprev |]. eapply Hchain; eauto.
Qed.

Lemma gen_unroll_inv (self : CrcGen) (dataVarName crcVarName : string) (h : heap) :
  exists word h',
    gen_unroll self dataVarName crcVarName h = Ok word h' /\
    word_inv dataVarName crcVarName (P self) 9 h' word 8.
Proof.
  destruct (gen_unroll_chain self dataVarName crcVarName h)
    as (ws & base & word & h' & E & Hlen & H0 & H8 & Hbase & Hchain).
  exists word, h'. split; [exact E |].
  eapply (chain_inv _ _ _ _ ws base H0 Hbase Hchain 8 word H8).
Qed.

(** ** [flatten] and [optimize] on a word of the generator *)

Lemma flatten_loop_ok (fuel : nat) (h0 : heap) (items : list item)
    (bitss : list (list item)) :
  Forall2 (fun x bits => isinstance_XOR x = true /\
                         allBitsRecursive fuel h0 x = Some bits /\
                         2 <= length bits) items bitss ->
  forall (newItems : list item) (h : heap),
    h0 `prefix_of` h ->
    flatten_loop fuel items newItems h =
    Ok (newItems ++ map Ref (seq (length h) (length items))) (h ++ bitss).
Proof.
  induction 1 as [|x bits items bitss (Hx & E & Hlen) _ IH]; intros newItems h Hp.
  - simpl. rewrite !app_nil_r. reflexivity.
  - simpl. rewrite Hx.
    rewrite (allBitsRecursive_mono _ _ _ _ fuel h E) by auto.
    unfold bind. rewrite XOR_init_ok by exact Hlen.
    rewrite IH by (etrans; [exact Hp | apply prefix_app_r; reflexivity]).
    rewrite length_app, Nat.add_1_r, <- !app_assoc. reflexivity.
Qed.

Lemma Word_optimize_fresh (bitss : list (list item)) :
  forall pre : heap,
    Word_optimize (map Ref (seq (length pre) (length bitss))) (pre ++ bitss)
    = Ok tt (pre ++ map optimize_items bitss).
Proof.
  unfold Word_optimize.
  induction bitss as [|bits bitss IH]; intros pre; [reflexivity |].
  simpl. unfold bind, XOR_optimize.
  rewrite list_lookup_middle by reflexivity.
  rewrite insert_app_r_alt, Nat.sub_diag by lia. simpl.
  specialize (IH (pre ++ [optimize_items bits])).
  rewrite length_app, Nat.add_1_r, <- !app_assoc in IH. exact IH.
Qed.

(** The leaves of the eight positions of a word of the unrolling. *)
Lemma word_inv_leaves (dataVarName crcVarName : string) (P0 : Z) (n : nat)
    (h : heap) (w : list item) (k : nat) :
  word_inv dataVarName crcVarName P0 n h w k ->
  exists bitss : list (list item),
    length bitss = 8 /\
    Forall2 (fun x bits => isinstance_XOR x = true /\
                           allBitsRecursive n h x = Some bits /\
                           2 <= length bits) w bitss /\
    forall i bits, bitss !! i = Some bits ->
      Forall (input_bit dataVarName crcVarName) bits /\
      (dataVarName <> crcVarName -> Z.odd P0 = true ->
       forall c0 d0,
         xor_all (bit_value (inputs crcVarName dataVarName c0 d0)) bits =
         Z.testbit (Nat.iter k (crc8_step P0) (Z.lxor d0 c0)) (Z.of_nat i)).
Proof.
  intros (Hlen & Hpos).
  destruct (length_8 w Hlen) as (a0 & a1 & a2 & a3 & a4 & a5 & a6 & a7 & ->).
  destruct (Hpos 0 ltac:(lia)) as (x0 & E0 & b0 & X0 & B0 & L0 & I0 & S0).
  destruct (Hpos 1 ltac:(lia)) as (x1 & E1 & b1 & X1 & B1 & L1 & I1 & S1).
  destruct (Hpos 2 ltac:(lia)) as (x2 & E2 & b2 & X2 & B2 & L2 & I2 & S2).
  destruct (Hpos 3 ltac:(lia)) as (x3 & E3 & b3 & X3 & B3 & L3 & I3 & S3).
  destruct (Hpos 4 ltac:(lia)) as (x4 & E4 & b4 & X4 & B4 & L4 & I4 & S4).
  destruct (Hpos 5 ltac:(lia)) as (x5 & E5 & b5 & X5 & B5 & L5 & I5 & S5).
  destruct (Hpos 6 ltac:(lia)) as (x6 & E6 & b6 & X6 & B6 & L6 & I6 & S6).
  destruct (Hpos 7 ltac:(lia)) as (x7 & E7 & b7 & X7 & B7 & L7 & I7 & S7).
  simpl in E0, E1, E2, E3, E4, E5, E6, E7.
  inversion E0; inversion E1; inversion E2; inversion E3;
    inversion E4; inversion E5; inversion E6; inversion E7; subst.
  exists [b0; b1; b2; b3; b4; b5; b6; b7].
  split; [reflexivity |]. split; [repeat constructor; assumption |].
  intros i bits Hi.
  do 8 (destruct i as [|i]; [inversion Hi; subst bits; split; assumption |]).
  discriminate.
Qed.

Lemma gen_result (fuel : nat) (self : CrcGen) (dataVarName crcVarName : string)
    (h : heap) :
  nrBits self = 8%Z -> 9 <= fuel ->
  exists (word : list item) (h1 : heap) (bitss : list (list item)),
    gen_unroll self dataVarName crcVarName h = Ok word h1 /\
    word_inv dataVarName crcVarName (P self) 9 h1 word 8 /\
    length bitss = 8 /\
    (forall i bits, bitss !! i = Some bits ->
       Forall (input_bit dataVarName crcVarName) bits /\
       (dataVarName <> crcVarName -> Z.odd (P self) = true ->
        forall c0 d0,
          xor_all (bit_value (inputs crcVarName dataVarName c0 d0)) bits =
          Z.testbit (crc8_ref c0 d0 (P self)) (Z.of_nat i))) /\
    Word_flatten fuel word h1 = Ok (map Ref (seq (length h1) 8)) (h1 ++ bitss) /\
    gen fuel self dataVarName crcVarName h =
      Ok (map Ref (seq (length h1) 8)) (h1 ++ map optimize_items bitss).
Proof.
  intros Hw Hfuel.
  destruct (gen_unroll_inv self dataVarName crcVarName h) as (word & h1 & E & Hinv).
  destruct (word_inv_leaves _ _ _ _ _ _ _ Hinv) as (bitss & Hlen & Hall & Hsem).
  assert (Hfl : Word_flatten fuel word h1 =
                Ok (map Ref (seq (length h1) 8)) (h1 ++ bitss)).
  { unfold Word_flatten.
    rewrite (flatten_loop_ok fuel h1 word bitss); [| | reflexivity].
    - rewrite (proj1 Hinv). reflexivity.
    - eapply Forall2_impl; [exact Hall |].
      intros x bits (Hx & Eb & Hl). repeat split; auto.
      eapply allBitsRecursive_mono; eauto. }
  exists word, h1, bitss.
  split; [exact E |]. split; [exact Hinv |]. split; [exact Hlen |].
  split; [exact Hsem |]. split; [exact Hfl |].
  unfold gen, bind, assert. rewrite Hw. change (8 =? 8)%Z with true.
  cbv beta iota. unfold ret at 1. rewrite E, Hfl.
  rewrite <- Hlen at 1. rewrite Word_optimize_fresh. reflexivity.
Qed.

(** C5: for every odd polynomial and width 8, each of the 8 positions of the
    word that the unrolling loop hands to [flatten] is an [XOR] object of
    the store, never a bare [Bit]; [flatten] therefore never takes its
    [else] branch on it, and [__gen] returns a word (given enough recursion
    depth, 9 references suffice). *)
Theorem gen_positions_are_XOR (fuel : nat) (self : CrcGen)
    (dataVarName crcVarName : string) (h : heap) :
  Z.odd (P self) = true -> nrBits self = 8%Z -> 9 <= fuel ->
  exists (word : list item) (h1 : heap),
    gen_unroll self dataVarName crcVarName h = Ok word h1 /\
    length word = 8 /\
    Forall (fun x => isinstance_XOR x = true /\
                     exists l items, x = Ref l /\ h1 !! l = Some items) word /\
    (exists word1 h2, Word_flatten fuel word h1 = Ok word1 h2) /\
    (exists word2 h3, gen fuel self dataVarName crcVarName h = Ok word2 h3).
Proof.
  intros _ Hw Hfuel.
  destruct (gen_result fuel self dataVarName crcVarName h Hw Hfuel)
    as (word & h1 & bitss & E & Hinv & _ & _ & Hfl & Hgen).
  exists word, h1. split; [exact E |]. split; [exact (proj1 Hinv) |].
  split; [| split; eauto].
  apply Forall_lookup. intros i x Hx.
  assert (Hi : i < 8) by (rewrite <- (proj1 Hinv); eapply lookup_lt_Some; eauto).
  destruct (proj2 Hinv i Hi) as (x' & Hx' & bits & HX & Eb & _).
  rewrite Hx in Hx'. inversion Hx'; subst x'. split; [exact HX |].
  destruct x as [name index|l]; [discriminate |].
  simpl in Eb. destruct (h1 !! l) as [items|] eqn:Hl; [| discriminate].
  eauto.
Qed.

Lemma gen_positions_are_XOR_witness :
  exists (word : list item) (h1 : heap),
    gen_unroll {| P := 7; nrBits := 8 |} "data" "crc" [] = Ok word h1 /\
    length word = 8 /\
    Forall (fun x => isinstance_XOR x = true /\
                     exists l items, x = Ref l /\ h1 !! l = Some items) word /\
    (exists word1 h2, Word_flatten 9 word h1 = Ok word1 h2) /\
    (exists word2 h3, gen 9 {| P := 7; nrBits := 8 |} "data" "crc" [] = Ok word2 h3).
Proof.
  apply (gen_positions_are_XOR 9 {| P := 7; nrBits := 8 |} "data" "crc" []).
  - reflexivity.
  - reflexivity.
  - lia.
Defined.

(** ** [optimize] keeps the exclusive or of the operands *)

Lemma xor_all_filter_split (v : item -> bool) (Q : item -> Prop)
    `{!forall x, Decision (Q x)} (l : list item) :
  xor_all v l =
  xorb (xor_all v (filter Q l)) (xor_all v (filter (fun x => ~ Q x) l)).
Proof.
  induction l as [|y l IH]; [reflexivity |].
  rewrite !filter_cons. simpl. rewrite IH.
  destruct (decide (Q y)) as [Hq|Hq].
  - rewrite decide_False by tauto. simpl. apply eq_sym, xorb_assoc.
  - rewrite decide_True by exact Hq. simpl.
    destruct (v y), (xor_all v (filter Q l)),
      (xor_all v (filter (fun x => ~ Q x) l)); reflexivity.
Qed.

Lemma filter_eq_NoDup (x : item) (l : list item) :
  NoDup l ->
  filter (fun y => y = x) l = if decide (x ∈ l) then [x] else [].
Proof.
  induction 1 as [|y l Hy Hnd IH]; [reflexivity |].
  rewrite filter_cons, IH. destruct (decide (y = x)) as [->|Hne].
  - rewrite decide_False by exact Hy.
    rewrite decide_True by (apply elem_of_cons; auto). reflexivity.
  - destruct (decide (x ∈ l)) as [Hin|Hin].
    + rewrite decide_True by (apply elem_of_cons; auto). reflexivity.
    + rewrite decide_False; [reflexivity |].
      rewrite elem_of_cons. intros [E|E]; [congruence | contradiction].
Qed.

(** The operands that occur an odd number of times, once each, have the
    same exclusive or as the whole list. *)
Lemma xor_all_odd_occurrences (v : item -> bool) (L : list item) :
  xor_all v (filter (fun x => Nat.odd (occurrences x L)) (first_occurrences L))
  = xor_all v L.
Proof.
  induction L as [|x L IH]; [reflexivity |].
  simpl first_occurrences. rewrite filter_cons.
  assert (Hrest :
    filter (fun y => Nat.odd (occurrences y (x :: L)))
           (filter (fun y => y <> x) (first_occurrences L)) =
    filter (fun y => y <> x)
           (filter (fun y => Nat.odd (occurrences y L)) (first_occurrences L))).
  { rewrite !list_filter_filter. apply list_filter_iff. intros y.
    rewrite occurrences_cons.
    destruct (decide (x = y)) as [Heq|Hne]; [split; intros [? ?]; congruence |].
    simpl. tauto. }
  rewrite Hrest. clear Hrest.
  set (M := filter (fun y => Nat.odd (occurrences y L)) (first_occurrences L)) in *.
  assert (HM : NoDup M) by apply NoDup_filter, first_occurrences_NoDup.
  assert (Hin : x ∈ M <-> Nat.odd (occurrences x L) = true).
  { unfold M. rewrite list_elem_of_filter, first_occurrences_elem, Is_true_true.
    split; [tauto |]. intros Ho. split; [exact Ho |].
    destruct (decide (x ∈ L)) as [H|H]; [exact H |].
    rewrite occurrences_0 in Ho by exact H. discriminate. }
  simpl xor_all at 2. rewrite <- IH.
  rewrite (xor_all_filter_split v (fun y => y = x) M).
  rewrite (filter_eq_NoDup x M HM).
  rewrite occurrences_cons.
  destruct (decide (x = x)) as [_|Hxx]; [| congruence].
  change (1 + occurrences x L) with (S (occurrences x L)).
  rewrite Nat.odd_succ, <- Nat.negb_odd.
  destruct (Nat.odd (occurrences x L)) eqn:Ho; simpl.
  - rewrite decide_True by (apply Hin; reflexivity). simpl.
    destruct (v x), (xor_all v (filter (fun y => y <> x) M)); reflexivity.
  - rewrite decide_False by (rewrite Hin; discriminate). simpl. reflexivity.
Qed.

Lemma filter_ext_in (Q1 Q2 : item -> Prop) `{!forall x, Decision (Q1 x)}
    `{!forall x, Decision (Q2 x)} (l : list item) :
  (forall x, x ∈ l -> (Q1 x <-> Q2 x)) -> filter Q1 l = filter Q2 l.
Proof.
  induction l as [|y l IH]; intros Hext; [reflexivity |].
  rewrite !filter_cons.
  rewrite IH by (intros x Hx; apply Hext, elem_of_cons; auto).
  destruct (decide (Q1 y)) as [H1|H1].
  - rewrite decide_True; [reflexivity |]. apply Hext; [apply elem_of_cons; auto | exact H1].
  - rewrite decide_False; [reflexivity |]. intros H2. apply H1.
    apply Hext; [apply elem_of_cons; auto | exact H2].
Qed.

Lemma occurrences_object (l : loc) (L : list item) :
  NoDup (filter (fun y => isinstance_XOR y = true) L) ->
  Ref l ∈ L -> occurrences (Ref l) L = 1.
Proof.
  intros Hnd Hin. unfold occurrences.
  rewrite <- (list_filter_filter_l (fun y => y = Ref l)
                (fun y => isinstance_XOR y = true) L)
    by (intros y ->; reflexivity).
  apply (occurrences_NoDup (Ref l) _ Hnd).
  apply list_elem_of_filter. split; [reflexivity | exact Hin].
Qed.

Lemma xor_all_optimize (v : item -> bool) (L : list item) :
  NoDup (filter (fun y => isinstance_XOR y = true) L) ->
  xor_all v (optimize_items L) = xor_all v L.
Proof.
  intros Hnd. rewrite optimize_items_spec.
  etrans; [| apply xor_all_odd_occurrences].
  f_equal. apply filter_ext_in. intros x Hx.
  rewrite first_occurrences_elem in Hx. unfold survives.
  destruct x as [name index|l]; simpl; [tauto |].
  rewrite (occurrences_object l L Hnd Hx). simpl. tauto.
Qed.

(** ** [flatten] and [optimize] keep the meaning of a word *)

Lemma xor_defined_all (e : item -> option bool) (L : list item) :
  Forall (fun x => is_Some (e x)) L ->
  xor_defined (map e L) = Some (xor_all (fun x => default false (e x)) L).
Proof.
  induction 1 as [|x L [b Hb] _ IH]; [reflexivity |].
  simpl. fold (xor_defined (map e L)). rewrite IH, Hb. reflexivity.
Qed.

Lemma xor_defined_None (e : item -> option bool) (L : list item) (x : item) :
  x ∈ L -> e x = None -> xor_defined (map e L) = None.
Proof.
  intros Hin Hx. induction L as [|y L IH]; [inversion Hin |].
  simpl. fold (xor_defined (map e L)).
  apply elem_of_cons in Hin. destruct Hin as [->|Hin].
  - rewrite Hx. reflexivity.
  - rewrite (IH Hin). destruct (e y); reflexivity.
Qed.

Lemma xor_defined_optimize (e : item -> option bool) (L : list item) :
  (forall name index, is_Some (e (Bit name index))) ->
  NoDup (filter (fun y => isinstance_XOR y = true) L) ->
  xor_defined (map e (optimize_items L)) = xor_defined (map e L).
Proof.
  intros Hbit Hnd.
  destruct (decide (Forall (fun x => is_Some (e x)) L)) as [Hall|Hnot].
  - rewrite !xor_defined_all; [f_equal; apply xor_all_optimize, Hnd | exact Hall |].
    apply Forall_forall. intros x Hx. apply optimize_items_elem in Hx.
    rewrite Forall_forall in Hall. apply Hall, Hx.
  - apply not_Forall_Exists in Hnot; [| intros x; apply _].
    apply Exists_exists in Hnot. destruct Hnot as (x & Hin & Hx).
    assert (Ex : e x = None)
      by (destruct (e x) eqn:E; [exfalso; apply Hx; eauto | reflexivity]).
    destruct x as [name index|l].
    + destruct (Hbit name index) as [b Hb]. congruence.
    + rewrite (xor_defined_None e L (Ref l) Hin Ex).
      apply (xor_defined_None e _ (Ref l)); [| exact Ex].
      apply optimize_items_elem. split; [exact Hin | reflexivity].
Qed.

Lemma denote_XOR_optimize (l : loc) (L : list item) (h : heap) :
  h !! l = Some L ->
  NoDup (filter (fun y => isinstance_XOR y = true) L) ->
  forall (fuel : nat) (rho : string -> Z -> bool) (x : item),
    denote fuel (<[l := optimize_items L]> h) rho x = denote fuel h rho x.
Proof.
  intros Hl Hnd fuel rho. induction fuel as [|fuel IH]; intros x.
  - destruct x; reflexivity.
  - destruct x as [name index|k]; [reflexivity |]. simpl.
    destruct (decide (k = l)) as [->|Hne].
    + rewrite list_lookup_insert_eq by (eapply lookup_lt_Some; eauto).
      rewrite Hl. rewrite (map_ext _ _ IH).
      apply xor_defined_optimize; [| exact Hnd].
      intros name index. destruct fuel; simpl; eauto.
    + rewrite list_lookup_insert_ne by congruence.
      destruct (h !! k); [| reflexivity]. rewrite (map_ext _ _ IH). reflexivity.
Qed.

Lemma distinct_objects_optimize (l : loc) (L : list item) (h : heap) (x : item) :
  h !! l = Some L ->
  distinct_objects h x ->
  distinct_objects (<[l := optimize_items L]> h) x.
Proof.
  intros Hl (k & items & -> & Hk & Hnd).
  destruct (decide (k = l)) as [->|Hne].
  - exists l, (optimize_items L). split; [reflexivity |]. split.
    + apply list_lookup_insert_eq. eapply lookup_lt_Some; eauto.
    + apply NoDup_filter, optimize_items_NoDup.
  - exists k, items. split; [reflexivity |]. split; [| exact Hnd].
    rewrite list_lookup_insert_ne by congruence. exact Hk.
Qed.

Lemma Word_optimize_denote (w : list item) :
  forall h : heap,
    Forall (distinct_objects h) w ->
    exists h', Word_optimize w h = Ok tt h' /\
               forall fuel rho x, denote fuel h' rho x = denote fuel h rho x.
Proof.
  unfold Word_optimize.
  induction w as [|x w IH]; intros h Hall.
  - exists h. split; reflexivity.
  - inversion Hall as [|? ? Hx Hw]; subst.
    destruct Hx as (l & L & -> & Hl & Hnd).
    destruct (IH (<[l := optimize_items L]> h)) as (h' & E & Hden).
    { eapply Forall_impl; [exact Hw |].
      intros y Hy. apply distinct_objects_optimize; assumption. }
    exists h'. split.
    + simpl. unfold bind, XOR_optimize. rewrite Hl. exact E.
    + intros fuel rho x. rewrite Hden. apply denote_XOR_optimize; assumption.
Qed.

Lemma xor_tree_leaves (fuel : nat) (h : heap) :
  forall x : item,
    xor_tree fuel h x = true ->
    exists bits,
      allBitsRecursive fuel h x = Some bits /\
      Forall (fun b => isinstance_Bit b = true) bits /\
      1 <= length bits /\
      (isinstance_XOR x = true -> 2 <= length bits) /\
      forall rho, denote fuel h rho x = Some (xor_all (bit_value rho) bits).
Proof.
  induction fuel as [|fuel IH]; intros x Hx.
  - destruct x as [name index|l]; [| discriminate].
    exists [Bit name index]. simpl. repeat split; auto; try discriminate.
    intros rho. rewrite xorb_false_r. reflexivity.
  - destruct x as [name index|l].
    + exists [Bit name index]. simpl. repeat split; auto; try discriminate.
      intros rho. rewrite xorb_false_r. reflexivity.
    + cbn [xor_tree] in Hx. cbn [allBitsRecursive denote].
      destruct (h !! l) as [items|]; [| discriminate].
      apply andb_true_iff in Hx. destruct Hx as [Hlen Hall].
      apply Nat.leb_le in Hlen.
      assert (G : exists bits,
                 yield_from (allBitsRecursive fuel h) items = Some bits /\
                 Forall (fun b => isinstance_Bit b = true) bits /\
                 length items <= length bits /\
                 forall rho, xor_defined (map (denote fuel h rho) items) =
                             Some (xor_all (bit_value rho) bits)).
      { clear Hlen. induction items as [|y items IHi].
        - exists []. repeat split; auto.
        - simpl in Hall. apply andb_true_iff in Hall. destruct Hall as [Hy Hall].
          destruct (IH y Hy) as (bs & Eb & Hb & Hl1 & _ & Hd).
          destruct (IHi Hall) as (rest & Er & Hr & Hl & Hdr).
          exists (bs ++ rest). simpl. fold (yield_from (allBitsRecursive fuel h) items).
          rewrite Eb, Er. split; [reflexivity |].
          split; [apply Forall_app; auto |].
          split; [rewrite length_app; lia |].
          intros rho. fold (xor_defined (map (denote fuel h rho) items)).
          rewrite Hd, Hdr, xor_all_app. reflexivity. }
      destruct G as (bits & Eb & Hb & Hl & Hd).
      exists bits. split; [exact Eb |]. split; [exact Hb |].
      split; [lia |]. split; [intros _; lia | exact Hd].
Qed.

Lemma denote_flat (fuel : nat) (h : heap) (l : loc) (bits : list item)
    (rho : string -> Z -> bool) :
  h !! l = Some bits ->
  Forall (fun b => isinstance_Bit b = true) bits ->
  denote (S fuel) h rho (Ref l) = Some (xor_all (bit_value rho) bits).
Proof.
  intros Hl Hb. simpl. rewrite Hl. clear Hl.
  induction Hb as [|b bits Hb _ IH]; [reflexivity |].
  simpl. fold (xor_defined (map (denote fuel h rho) bits)). rewrite IH.
  destruct b as [name index|]; [| discriminate]. destruct fuel; reflexivity.
Qed.

Lemma filter_XOR_bits (bits : list item) :
  Forall (fun b => isinstance_Bit b = true) bits ->
  filter (fun y => isinstance_XOR y = true) bits = [].
Proof.
  induction 1 as [|b bits Hb _ IH]; [reflexivity |].
  rewrite filter_cons, IH. destruct b; [| discriminate].
  rewrite decide_False by discriminate. reflexivity.
Qed.

(** [flatten] on a word of expression trees: the new word holds one fresh
    flat [XOR] per position, with the same meaning. *)
Lemma Word_flatten_denote (fuel : nat) (w : list item) (h : heap) :
  Forall (fun x => isinstance_XOR x = true /\ xor_tree fuel h x = true) w ->
  exists w' h',
    Word_flatten fuel w h = Ok w' h' /\
    preserves_meaning fuel h w h' w' /\
    Forall (distinct_objects h') w'.
Proof.
  intros Hall.
  assert (G : exists bitss,
             Forall2 (fun x bits =>
                        (isinstance_XOR x = true /\
                         allBitsRecursive fuel h x = Some bits /\
                         2 <= length bits) /\
                        Forall (fun b => isinstance_Bit b = true) bits /\
                        forall rho, denote fuel h rho x =
                                    Some (xor_all (bit_value rho) bits)) w bitss).
  { induction Hall as [|x w [Hx Ht] _ IH]; [exists []; constructor |].
    destruct IH as (bitss & IH).
    destruct (xor_tree_leaves fuel h x Ht) as (bits & Eb & Hb & _ & Hl & Hd).
    exists (bits :: bitss). constructor; auto. }
  destruct G as (bitss & G).
  exists (map Ref (seq (length h) (length w))), (h ++ bitss).
  split; [| split].
  - unfold Word_flatten.
    rewrite (flatten_loop_ok fuel h w bitss); [reflexivity | | reflexivity].
    eapply Forall2_impl; [exact G |]. intros x bits [H _]. exact H.
  - split; [rewrite length_map, length_seq; reflexivity |].
    intros i x x' rho Hx Hx'.
    destruct (Forall2_lookup_l _ _ _ _ _ G Hx) as (bits & Hbits & (HX & _) & Hb & Hd).
    rewrite list_lookup_fmap, lookup_seq_lt in Hx'
      by (eapply lookup_lt_Some; eauto).
    inversion Hx'; subst x'.
    destruct fuel as [|fuel];
      [destruct x; [discriminate | specialize (Hd rho); discriminate] |].
    rewrite Hd.
    apply denote_flat; [| exact Hb].
    rewrite lookup_app_plus. exact Hbits.
  - apply Forall_forall. intros x Hx.
    apply list_elem_of_fmap in Hx. destruct Hx as (l & -> & Hl).
    apply elem_of_seq in Hl.
    destruct (lookup_lt_is_Some_2 bitss (l - length h)) as (bits & Hbits).
    { rewrite <- (Forall2_length _ _ _ G). lia. }
    exists l, bits. split; [reflexivity |]. split.
    + rewrite lookup_app_r by lia. exact Hbits.
    + destruct (Forall2_lookup_r _ _ _ _ _ G Hbits) as (x & _ & _ & Hb & _).
      rewrite (filter_XOR_bits bits Hb). constructor.
Qed.

(** C7, amended: [Word.flatten] keeps the number of positions of the word
    and the boolean function that each position denotes, for every word
    whose every element is an ExclusiveOr tree over Bit leaves in which
    each ExclusiveOr has at least two operands, as the constructor builds
    them; [Word.optimize] does so for every word of ExclusiveOr elements
    none of whose operand lists holds the same ExclusiveOr object twice,
    in particular for every flattened word; so does [flatten] followed by
    [optimize], as [__gen] runs them. *)
Theorem flatten_optimize_preserve_meaning (fuel : nat) (w : list item) (h : heap) :
  (Forall (fun x => isinstance_XOR x = true /\ xor_tree fuel h x = true) w ->
   exists w' h',
     Word_flatten fuel w h = Ok w' h' /\ preserves_meaning fuel h w h' w') /\
  (Forall (distinct_objects h) w ->
   exists h',
     Word_optimize w h = Ok tt h' /\ preserves_meaning fuel h w h' w) /\
  (Forall (fun x => isinstance_XOR x = true /\ xor_tree fuel h x = true) w ->
   exists w' h',
     (let* w1 := Word_flatten fuel w in
      let* _ := Word_optimize w1 in ret w1) h = Ok w' h' /\
     preserves_meaning fuel h w h' w').
Proof.
  split; [| split].
  - intros Hall.
    destruct (Word_flatten_denote fuel w h Hall) as (w' & h' & E & Hm & _). eauto.
  - intros Hall.
    destruct (Word_optimize_denote w h Hall) as (h' & E & Hd).
    exists h'. split; [exact E |]. split; [reflexivity |].
    intros i x x' rho Hx Hx'. rewrite Hx in Hx'. inversion Hx'; subst x'. apply Hd.
  - intros Hall.
    destruct (Word_flatten_denote fuel w h Hall) as (w' & h1 & E & [Hlen Hm] & Hdis).
    destruct (Word_optimize_denote w' h1 Hdis) as (h' & E' & Hd).
    exists w', h'. unfold bind. rewrite E, E'. split; [reflexivity |].
    split; [exact Hlen |].
    intros i x x' rho Hx Hx'. rewrite Hd. eapply Hm; eauto.
Qed.

Lemma flatten_optimize_preserve_meaning_witness :
  let h := [[Bit "a" 0; Bit "b" 0]; [Ref 0; Bit "a" 0]] in
  (exists w' h', Word_flatten 2 [Ref 1] h = Ok w' h' /\
                 preserves_meaning 2 h [Ref 1] h' w') /\
  (exists h', Word_optimize [Ref 1] h = Ok tt h' /\
              preserves_meaning 2 h [Ref 1] h' [Ref 1]).
Proof.
  pose proof (flatten_optimize_preserve_meaning 2 [Ref 1]
                [[Bit "a" 0; Bit "b" 0]; [Ref 0; Bit "a" 0]]) as (H1 & H2 & _).
  split.
  - apply H1. repeat constructor.
  - apply H2. repeat constructor.
    exists 1, [Ref 0; Bit "a" 0]. split; [reflexivity |]. split; [reflexivity |].
    apply (NoDup_singleton (Ref 0)).
Defined.

(** C7 as stated fails for [optimize]: in the word whose only element is
    [XOR(z, z)], with [z = XOR(Bit("a", 0), Bit("b", 0))] twice the same
    object, every element is an ExclusiveOr over Bit leaves and denotes the
    constant 0; [optimize] leaves the single operand [z], so that the
    position then denotes [a0 ^ b0]. *)
Lemma Word_optimize_changes_meaning :
  let h := [[Bit "a" 0; Bit "b" 0]; [Ref 0; Ref 0]] in
  let w := [Ref 1] in
  Forall (fun x => isinstance_XOR x = true /\ xor_tree 2 h x = true) w /\
  exists h', Word_optimize w h = Ok tt h' /\ ~ preserves_meaning 2 h w h' w.
Proof.
  split; [repeat constructor |].
  exists [[Bit "a" 0; Bit "b" 0]; [Ref 0]]. split; [reflexivity |].
  intros [_ H].
  specialize (H 0 (Ref 1) (Ref 1) (fun name _ => String.eqb name "a") eq_refl eq_refl).
  vm_compute in H. discriminate.
Qed.

(** A one-operand [XOR], as [optimize] leaves it, is not flattened: the
    constructor refuses the single leaf. *)
Lemma flatten_after_optimize_fails :
  (let* x := XOR_init [Bit "a" 0; Bit "a" 0; Bit "a" 0] in
   let* _ := Word_optimize [x] in
   Word_flatten 2 [x]) [] = Raise AssertionError.
Proof. reflexivity. Qed.

(** ** The generated function computes the CRC *)

Lemma land_1_b2z (z : Z) : Z.land z 1 = Z.b2z (Z.odd z).
Proof.
  change 1%Z with (Z.ones 1) at 1. rewrite Z.land_ones by lia.
  rewrite Z.pow_1_r, Zmod_odd. destruct (Z.odd z); reflexivity.
Qed.

Lemma lxor_b2z (a b : bool) : Z.lxor (Z.b2z a) (Z.b2z b) = Z.b2z (xorb a b).
Proof. destruct a, b; reflexivity. Qed.

Lemma testbit_b2z_pos (b : bool) (k : Z) :
  (0 < k)%Z -> Z.testbit (Z.b2z b) k = false.
Proof.
  intros Hk. destruct b; simpl; [| apply Z.bits_0].
  change 1%Z with (2 ^ 0)%Z. apply Z.pow2_bits_false. lia.
Qed.

Lemma lor_bit_step (r j : Z) :
  (0 <= j)%Z ->
  Z.lor (r mod 2 ^ j) (Z.shiftl (Z.b2z (Z.testbit r j)) j) = (r mod 2 ^ (j + 1))%Z.
Proof.
  intros Hj. apply Z.bits_inj'. intros m Hm.
  rewrite Z.lor_spec, !Z.testbit_mod_pow2, Z.shiftl_spec by lia.
  destruct (Z.ltb_spec m j) as [Hlt|Hge].
  - rewrite (Z.testbit_neg_r _ (m - j)) by lia.
    destruct (Z.ltb_spec m (j + 1)); [| lia]. simpl. apply orb_false_r.
  - simpl. destruct (Z.eq_dec m j) as [->|Hne].
    + rewrite Z.sub_diag, Z.b2z_bit0.
      destruct (Z.ltb_spec j (j + 1)); [reflexivity | lia].
    + rewrite testbit_b2z_pos by lia.
      destruct (Z.ltb_spec m (j + 1)); [lia | reflexivity].
Qed.

Lemma eval_leaf (crcVarName dataVarName : string) (c0 d0 : Z)
    (rho : string -> option pyval) (x : item) :
  crcVarName <> dataVarName ->
  env_ok crcVarName dataVarName c0 d0 rho ->
  input_bit dataVarName crcVarName x ->
  eval_expr rho (leaf_py x) =
  inr (VInt (Z.b2z (bit_value (inputs crcVarName dataVarName c0 d0) x))).
Proof.
  intros Hne [Hc Hd] (name & index & -> & Hname & Hidx).
  assert (Hv : rho name =
               Some (VInt (if String.eqb name dataVarName then d0 else c0))).
  { destruct Hname as [->| ->].
    - rewrite String.eqb_refl. exact Hd.
    - destruct (String.eqb_spec crcVarName dataVarName); [contradiction | exact Hc]. }
  simpl. unfold Bit_py, inputs.
  destruct (Z.eqb_spec index 0) as [->|Hnz]; simpl; unfold lookup_var; rewrite Hv; simpl.
  - rewrite land_1_b2z. reflexivity.
  - destruct (Z.ltb_spec index 0); [lia |]. simpl.
    rewrite land_1_b2z, <- Z.bit0_odd, Z.shiftr_spec by lia. reflexivity.
Qed.

Lemma eval_leaves_fold (crcVarName dataVarName : string) (c0 d0 : Z)
    (rho : string -> option pyval) (bits : list item) :
  crcVarName <> dataVarName ->
  env_ok crcVarName dataVarName c0 d0 rho ->
  Forall (input_bit dataVarName crcVarName) bits ->
  forall a : bool,
    fold_left (fun acc e' =>
                 andThen acc (fun a =>
                 andThen (eval_expr rho e') (fun b => py_xor a b)))
              (map leaf_py bits) (inr (VInt (Z.b2z a)))
    = inr (VInt (Z.b2z (xorb a (xor_all
             (bit_value (inputs crcVarName dataVarName c0 d0)) bits)))).
Proof.
  intros Hne Henv. induction 1 as [|x bits Hx _ IH]; intros a; simpl.
  - rewrite xorb_false_r. reflexivity.
  - rewrite (eval_leaf crcVarName dataVarName c0 d0 rho x Hne Henv Hx). simpl.
    rewrite lxor_b2z, IH, xorb_assoc. reflexivity.
Qed.

Lemma eval_flat_XOR (crcVarName dataVarName : string) (c0 d0 : Z)
    (rho : string -> option pyval) (bits : list item) :
  crcVarName <> dataVarName ->
  env_ok crcVarName dataVarName c0 d0 rho ->
  Forall (input_bit dataVarName crcVarName) bits ->
  bits <> [] ->
  eval_expr rho (EXor (map leaf_py bits)) =
  inr (VInt (Z.b2z (xor_all (bit_value (inputs crcVarName dataVarName c0 d0))
                            bits))).
Proof.
  intros Hne Henv Hin Hnil. destruct bits as [|x bits]; [congruence |].
  inversion Hin as [|? ? Hx Hrest]; subst.
  change (eval_expr rho (EXor (map leaf_py (x :: bits)))) with
    (fold_left (fun acc e' =>
                  andThen acc (fun a =>
                  andThen (eval_expr rho e') (fun b => py_xor a b)))
               (map leaf_py bits) (eval_expr rho (leaf_py x))).
  rewrite (eval_leaf crcVarName dataVarName c0 d0 rho x Hne Henv Hx).
  apply eval_leaves_fold; assumption.
Qed.

Lemma item_py_flat (fuel : nat) (h : heap) (l : loc) (bits : list item) :
  h !! l = Some bits ->
  Forall (fun b => isinstance_Bit b = true) bits ->
  item_py (S fuel) h (Ref l) = Some (EXor (map leaf_py bits)).
Proof.
  intros Hl Hb. simpl. rewrite Hl. clear Hl.
  assert (G : render_items (item_py fuel h) bits = Some (map leaf_py bits)).
  { induction Hb as [|b bits Hb _ IH]; [reflexivity |].
    simpl. fold (render_items (item_py fuel h) bits). rewrite IH.
    destruct b as [name index|]; [| discriminate]. destruct fuel; reflexivity. }
  rewrite G. reflexivity.
Qed.

Lemma render_word_flat (fuel : nat) (H : heap) (objs : list (list item)) :
  Forall (Forall (fun b => isinstance_Bit b = true)) objs ->
  forall k : nat,
    (forall i bits, objs !! i = Some bits -> H !! (k + i) = Some bits) ->
    render_word (item_py (S fuel) ) (map Ref (seq k (length objs))) H =
    Ok (map (fun bits => EXor (map leaf_py bits)) objs) H.
Proof.
  unfold render_word.
  induction 1 as [|bits objs Hb _ IH]; intros k Hk; [reflexivity |].
  simpl length. simpl seq. simpl map. cbn [mapM]. unfold bind.
  rewrite (item_py_flat fuel H k bits); [| | exact Hb].
  - rewrite IH; [reflexivity |].
    intros i bs Hi. rewrite <- (Hk (S i) bs Hi). f_equal. lia.
  - rewrite <- (Hk 0 bits eq_refl). f_equal. lia.
Qed.

Lemma env_ok_set_ret (crcVarName dataVarName : string) (c0 d0 : Z)
    (rho : string -> option pyval) (v : pyval) :
  crcVarName <> "ret" -> dataVarName <> "ret" ->
  env_ok crcVarName dataVarName c0 d0 rho ->
  env_ok crcVarName dataVarName c0 d0 (env_set "ret" v rho).
Proof.
  intros Hc Hd [H1 H2]. unfold env_ok, env_set.
  destruct (String.eqb_spec crcVarName "ret"); [contradiction |].
  destruct (String.eqb_spec dataVarName "ret"); [contradiction |]. auto.
Qed.

(** The lines [ret |= (e) << i] of the body, from position [j] on. *)
Lemma exec_body_tail (crcVarName dataVarName : string) (c0 d0 r : Z) :
  crcVarName <> "ret" -> dataVarName <> "ret" ->
  forall (es : list expr) (j : nat) (rho : string -> option pyval),
    1 <= j ->
    env_ok crcVarName dataVarName c0 d0 rho ->
    rho "ret" = Some (VInt (r mod 2 ^ Z.of_nat j)) ->
    (forall i e, es !! i = Some e ->
       forall rho', env_ok crcVarName dataVarName c0 d0 rho' ->
         eval_expr rho' e = inr (VInt (Z.b2z (Z.testbit r (Z.of_nat (j + i)))))) ->
    exists rho'',
      exec_body rho (imap (fun i e => body_line (j + i) e) es) = inr rho'' /\
      rho'' "ret" = Some (VInt (r mod 2 ^ Z.of_nat (j + length es))).
Proof.
  intros Hc Hd. induction es as [|e es IH]; intros j rho Hj Henv Hret Hes.
  - exists rho. split; [reflexivity |]. simpl. rewrite Nat.add_0_r. exact Hret.
  - rewrite imap_cons. cbn [exec_body].
    assert (Hline : body_line (j + 0) e = OrAssign e (Z.of_nat j)).
    { unfold body_line. rewrite Nat.add_0_r.
      destruct (Nat.eqb_spec j 0); [lia | reflexivity]. }
    rewrite Hline. unfold exec_stmt. rewrite Hret.
    rewrite (Hes 0 e eq_refl rho Henv), Nat.add_0_r. simpl andThen.
    destruct (Z.ltb_spec (Z.of_nat j) 0); [lia |]. simpl andThen.
    rewrite lor_bit_step by lia.
    destruct (IH (S j)
                (env_set "ret" (VInt (r mod 2 ^ (Z.of_nat j + 1))) rho))
      as (rho'' & E & Hr).
    + lia.
    + apply env_ok_set_ret; assumption.
    + unfold env_set. simpl. rewrite Nat2Z.inj_succ. reflexivity.
    + intros i e' Hi rho' Henv'. rewrite (Hes (S i) e' Hi rho' Henv').
      replace (j + S i) with (S j + i) by lia. reflexivity.
    + exists rho''. split.
      * rewrite <- E. f_equal. apply imap_ext. intros i x _.
        unfold compose. f_equal. lia.
      * rewrite Hr. replace (S j + length es) with (j + length (e :: es))
          by (simpl; lia). reflexivity.
Qed.

Lemma crc8_step_range (P0 x : Z) : (0 <= crc8_step P0 x < 256)%Z.
Proof.
  unfold crc8_step.
  change 255%Z with (Z.ones 8). rewrite Z.land_ones by lia.
  apply Z.mod_pos_bound. reflexivity.
Qed.

Lemma crc8_ref_range (c0 d0 P0 : Z) : (0 <= crc8_ref c0 d0 P0 < 256)%Z.
Proof. unfold crc8_ref. simpl Nat.iter. apply crc8_step_range. Qed.

(** Every output bit of the bit-serial computation takes the value 1 for
    some input byte, whatever the odd polynomial. *)
Lemma crc8_ref_bit_reached (P0 : Z) (i : nat) :
  Z.odd P0 = true -> (0 < P0 <= 255)%Z -> i < 8 ->
  exists d0, Z.testbit (crc8_ref 0 d0 P0) (Z.of_nat i) = true.
Proof.
  intros Hodd HP Hi.
  assert (Hall :
    forallb (fun p =>
      negb (Z.odd p) ||
      forallb (fun k => existsb (fun d => Z.testbit (crc8_ref 0 d p) k) range256)
              [0; 1; 2; 3; 4; 5; 6; 7]%Z) range256 = true)
    by (vm_compute; reflexivity).
  rewrite forallb_forall in Hall.
  assert (HinP : In P0 range256).
  { unfold range256. apply in_map_iff. exists (Z.to_nat P0).
    split; [lia |]. apply in_seq. lia. }
  specialize (Hall P0 HinP). rewrite Hodd in Hall. simpl negb in Hall.
  rewrite orb_false_l, forallb_forall in Hall.
  assert (Hini : In (Z.of_nat i) [0; 1; 2; 3; 4; 5; 6; 7]%Z).
  { do 8 (destruct i as [|i]; [simpl; tauto |]). lia. }
  specialize (Hall _ Hini). apply existsb_exists in Hall.
  destruct Hall as (d0 & _ & Hd). exists d0. exact Hd.
Qed.

Lemma call_python_bits (crcVarName dataVarName funcName : string)
    (P0 c0 d0 r : Z) (es : list expr) :
  crcVarName <> dataVarName -> crcVarName <> "ret" -> dataVarName <> "ret" ->
  length es = 8 -> (0 <= r < 256)%Z ->
  (forall i e, es !! i = Some e ->
     forall rho', env_ok crcVarName dataVarName c0 d0 rho' ->
       eval_expr rho' e = inr (VInt (Z.b2z (Z.testbit r (Z.of_nat i))))) ->
  call_python (PythonText P0 funcName crcVarName dataVarName (imap body_line es))
              c0 d0 = inr (VInt r).
Proof.
  intros Hne Hc Hd Hlen Hr Hes.
  destruct es as [|e0 es]; [discriminate |]. simpl in Hlen.
  unfold call_python.
  destruct (String.eqb_spec crcVarName dataVarName); [contradiction |].
  set (rho0 := env_set dataVarName (VInt d0)
                 (env_set crcVarName (VInt c0) (fun _ => None))).
  assert (Henv : env_ok crcVarName dataVarName c0 d0 rho0).
  { unfold env_ok, rho0, env_set. rewrite !String.eqb_refl.
    destruct (String.eqb_spec crcVarName dataVarName); [contradiction | auto]. }
  rewrite imap_cons. cbn [exec_body].
  change (body_line 0 e0) with (Assign e0). unfold exec_stmt.
  rewrite (Hes 0 e0 eq_refl rho0 Henv). cbn [andThen].
  change (body_line ∘ S) with (fun i e => body_line (1 + i) e).
  destruct (exec_body_tail crcVarName dataVarName c0 d0 r Hc Hd es 1
              (env_set "ret" (VInt (Z.b2z (Z.testbit r (Z.of_nat 0)))) rho0))
    as (rho'' & E & Hret).
  - lia.
  - apply env_ok_set_ret; assumption.
  - unfold env_set. rewrite String.eqb_refl.
    change (Z.of_nat 0) with 0%Z. change (2 ^ Z.of_nat 1)%Z with 2%Z.
    rewrite Z.bit0_mod. reflexivity.
  - intros i e Hi rho' Henv'. apply (Hes (S i) e Hi rho' Henv').
  - rewrite E. cbn [andThen]. rewrite Hret.
    replace (1 + length es) with 8 by lia.
    change (2 ^ Z.of_nat 8)%Z with 256%Z. rewrite Z.mod_small by exact Hr.
    reflexivity.
Qed.

(** The function generated for an odd 8-bit polynomial computes the
    reference CRC, whatever the names of its two parameters. *)
Lemma genPython_correct (fuel : nat) (self : CrcGen)
    (funcName crcVarName dataVarName : string) (h : heap) :
  Z.odd (P self) = true -> (0 < P self <= 255)%Z -> nrBits self = 8%Z ->
  crcVarName <> dataVarName -> crcVarName <> "ret" -> dataVarName <> "ret" ->
  9 <= fuel ->
  exists t h',
    genPython fuel self funcName crcVarName dataVarName h = Ok t h' /\
    forall c0 d0, call_python t c0 d0 = inr (VInt (crc8_ref c0 d0 (P self))).
Proof.
  intros Hodd HP Hw Hne Hc Hd Hfuel.
  destruct (gen_result fuel self dataVarName crcVarName h Hw Hfuel)
    as (word & h1 & bitss & E & Hinv & Hlen & Hsem & Hfl & Hgen).
  assert (Hne' : dataVarName <> crcVarName) by congruence.
  set (objs := map optimize_items bitss).
  assert (Hobj : forall i bits, objs !! i = Some bits ->
            Forall (input_bit dataVarName crcVarName) bits /\ bits <> [] /\
            forall c0 d0,
              xor_all (bit_value (inputs crcVarName dataVarName c0 d0)) bits =
              Z.testbit (crc8_ref c0 d0 (P self)) (Z.of_nat i)).
  { intros i bits Hi. unfold objs in Hi.
    rewrite list_lookup_fmap in Hi.
    destruct (bitss !! i) as [bs|] eqn:Hbs; [| discriminate].
    inversion Hi; subst bits. clear Hi.
    destruct (Hsem i bs Hbs) as [Hin Hval].
    assert (Hnd : NoDup (filter (fun y => isinstance_XOR y = true) bs)).
    { rewrite filter_XOR_bits; [constructor |].
      eapply Forall_impl; [exact Hin |]. intros x (n & k & -> & _). reflexivity. }
    assert (Hv : forall c0 d0,
               xor_all (bit_value (inputs crcVarName dataVarName c0 d0))
                       (optimize_items bs) =
               Z.testbit (crc8_ref c0 d0 (P self)) (Z.of_nat i)).
    { intros c0 d0. rewrite xor_all_optimize by exact Hnd.
      apply Hval; assumption. }
    split; [| split; [| exact Hv]].
    - apply Forall_forall. intros x Hx. apply optimize_items_elem in Hx.
      rewrite Forall_forall in Hin. apply Hin, Hx.
    - intros Hnil.
      assert (Hi8 : i < 8) by (rewrite <- Hlen; eapply lookup_lt_Some; eauto).
      destruct (crc8_ref_bit_reached (P self) i Hodd HP Hi8) as (d0 & Hd0).
      specialize (Hv 0%Z d0). rewrite Hnil, Hd0 in Hv. discriminate. }
  destruct fuel as [|fuel]; [lia |].
  assert (Hrender :
    render_word (item_py (S fuel)) (map Ref (seq (length h1) 8)) (h1 ++ objs) =
    Ok (map (fun bits => EXor (map leaf_py bits)) objs) (h1 ++ objs)).
  { replace 8 with (length objs) by (unfold objs; rewrite length_map; exact Hlen).
    apply render_word_flat.
    - apply Forall_lookup. intros i bits Hi.
      destruct (Hobj i bits Hi) as [Hin _].
      eapply Forall_impl; [exact Hin |]. intros x (n & k & -> & _). reflexivity.
    - intros i bits Hi. rewrite lookup_app_plus. exact Hi. }
  eexists _, _. split.
  - unfold genPython, bind. rewrite Hgen. fold objs. rewrite Hrender. reflexivity.
  - intros c0 d0. apply call_python_bits; try assumption.
    + rewrite length_map. unfold objs. rewrite length_map. exact Hlen.
    + apply crc8_ref_range.
    + intros i e Hi rho' Henv. rewrite list_lookup_fmap in Hi.
      destruct (objs !! i) as [bits|] eqn:Hbits; [| discriminate].
      inversion Hi; subst e. clear Hi.
      destruct (Hobj i bits Hbits) as (Hin & Hnil & Hv).
      rewrite (eval_flat_XOR crcVarName dataVarName c0 d0 rho' bits)
        by assumption.
      rewrite Hv. reflexivity.
Qed.

(** C1: for every odd polynomial [P] with [0 < P <= 255], the function
    that [genPython] generates with its default names, as the self test
    runs it, returns for every register value [c] and every input byte [d]
    in 0..255 the value of the bit-serial reference [crc8_ref(c, d)]: the
    8 formulas of [__gen], flattened and optimized, evaluated with [crc = c]
    and [data = d], shifted to their position and OR-ed together.  The
    generation succeeds with a recursion depth of 9 or more. *)
Theorem generated_crc_equals_reference (P0 : Z) (fuel : nat) (h : heap) :
  Z.odd P0 = true -> (0 < P0 <= 255)%Z -> 9 <= fuel ->
  exists self t h',
    CrcGen_init P0 8 h = Ok self h /\
    genPython fuel self "crc" "crc" "data" h = Ok t h' /\
    forall c0 d0, (0 <= c0 <= 255)%Z -> (0 <= d0 <= 255)%Z ->
                  call_python t c0 d0 = inr (VInt (crc8_ref c0 d0 P0)).
Proof.
  intros Hodd HP Hfuel.
  destruct (genPython_correct fuel {| P := P0; nrBits := 8 |}
              "crc" "crc" "data" h) as (t & h' & E & Hcall);
    try assumption; try reflexivity; try discriminate.
  exists {| P := P0; nrBits := 8 |}, t, h'.
  split; [apply CrcGen_init_odd, Hodd |]. split; [exact E |].
  intros c0 d0 _ _. apply Hcall.
Qed.

Lemma generated_crc_equals_reference_witness :
  exists self t h',
    CrcGen_init 7 8 [] = Ok self [] /\
    genPython 9 self "crc" "crc" "data" [] = Ok t h' /\
    forall c0 d0, (0 <= c0 <= 255)%Z -> (0 <= d0 <= 255)%Z ->
                  call_python t c0 d0 = inr (VInt (crc8_ref c0 d0 7)).
Proof.
  apply (generated_crc_equals_reference 7 9 []).
  - reflexivity.
  - lia.
  - lia.
Defined.

(** ** The self test of the command line *)

Lemma first_failure_None {A} (f : A -> option exn) (l : list A) :
  (forall x, In x l -> f x = None) -> first_failure f l = None.
Proof.
  induction l as [|x l IH]; intros Hall; [reflexivity |].
  simpl. rewrite (Hall x) by (left; reflexivity).
  apply IH. intros y Hy. apply Hall. right. exact Hy.
Qed.

(** With a valid polynomial the self test ([crcgen.py -T]) compares the
    generated function with the reference on the 65536 pairs, finds no
    difference and the program ends normally. *)
Lemma main_self_test_passes (fuel : nat) (args : Args) :
  Z.odd (polynomial args) = true -> (0 < polynomial args <= 255)%Z ->
  nr_bits args = 8%Z -> test args = true -> 9 <= fuel ->
  main fuel args = exit_ok [PrintLine "Testing..."; PrintLine "done."].
Proof.
  intros Hodd HP Hw Ht Hfuel. unfold main.
  assert (Hv : validate args = inr tt).
  { unfold validate. rewrite land_1_odd, Hodd, Hw. simpl negb. cbv iota.
    change (8 <? 0)%Z with false. change (Z.shiftl 1 8 - 1)%Z with 255%Z.
    cbv iota.
    destruct (Z.gtb_spec (polynomial args) 255); [lia | reflexivity]. }
  rewrite Hv, Hw, (CrcGen_init_odd _ _ _ Hodd), Ht.
  destruct (genPython_correct fuel {| P := polynomial args; nrBits := 8 |}
              "crc" "crc" "data" []) as (t & h' & E & Hcall);
    try assumption; try reflexivity; try discriminate.
  rewrite E. simpl P in Hcall.
  assert (Hs : self_test t (polynomial args) = None).
  { unfold self_test. apply first_failure_None. intros c0 _.
    apply first_failure_None. intros d0 _.
    rewrite Hcall. unfold pyval_eqb. rewrite Z.eqb_refl. reflexivity. }
  rewrite Hs. reflexivity.
Qed.

(** * Further properties of the expression engine *)

(** ** Indexing a [Word] *)

Lemma rev_lookup (bits : list item) (i : nat) :
  i < length bits -> rev bits !! i = bits !! (length bits - 1 - i).
Proof.
  intros Hi. rewrite rev_alt. change (rev_append bits []) with (reverse bits).
  rewrite reverse_lookup by exact Hi. f_equal. lia.
Qed.

(** X1: a word built most-significant-bit first is stored reversed:
    position [i] of [Word(bits)] is the argument [len(bits) - 1 - i], so
    that position 0 is the last argument; with [MSB=False] position [i] is
    the argument [i].  Reading a position leaves the store as it is. *)
Theorem Word_init_getitem (bits : list item) (i : nat) (h : heap) :
  i < length bits ->
  (exists x, bits !! (length bits - 1 - i) = Some x /\
             Word_getitem (Word_init bits true) (Z.of_nat i) h = Ok x h) /\
  (exists x, bits !! i = Some x /\
             Word_getitem (Word_init bits false) (Z.of_nat i) h = Ok x h).
Proof.
  intros Hi. split.
  - destruct (lookup_lt_is_Some_2 bits (length bits - 1 - i)) as (x & Hx); [lia |].
    exists x. split; [exact Hx |]. apply Word_getitem_ok.
    unfold Word_init. rewrite rev_lookup by exact Hi. exact Hx.
  - destruct (lookup_lt_is_Some_2 bits i Hi) as (x & Hx).
    exists x. split; [exact Hx |]. apply Word_getitem_ok. exact Hx.
Qed.

Lemma Word_init_getitem_witness :
  Word_getitem (Word_init [Bit "a" 7; Bit "a" 6; Bit "a" 5] true) 0 []
  = Ok (Bit "a" 5) [].
Proof.
  destruct (Word_init_getitem [Bit "a" 7; Bit "a" 6; Bit "a" 5] 0 [])
    as [(x & Hx & E) _]; [simpl; lia |].
  simpl in Hx. inversion Hx; subst x. exact E.
Defined.

(** X2: [word[index]] follows Python's indexing: an index from [-len] to
    [-1] counts from the end, an index from [0] to [len - 1] from the
    start, and every other index raises [IndexError]. *)
Theorem Word_getitem_index (w : list item) (index : Z) (h : heap) :
  ((index < - Z.of_nat (length w) \/ Z.of_nat (length w) <= index)%Z ->
   Word_getitem w index h = Raise IndexError) /\
  ((- Z.of_nat (length w) <= index < 0)%Z ->
   exists x, w !! Z.to_nat (index + Z.of_nat (length w)) = Some x /\
             Word_getitem w index h = Ok x h) /\
  ((0 <= index < Z.of_nat (length w))%Z ->
   exists x, w !! Z.to_nat index = Some x /\
             Word_getitem w index h = Ok x h).
Proof.
  unfold Word_getitem. split; [| split]; intros Hi.
  - destruct (Z.ltb_spec index 0).
    + destruct (Z.leb_spec 0 (index + Z.of_nat (length w))); [| reflexivity].
      destruct (Z.ltb_spec (index + Z.of_nat (length w)) (Z.of_nat (length w)));
        [lia | reflexivity].
    + destruct (Z.leb_spec 0 index); [| lia].
      destruct (Z.ltb_spec index (Z.of_nat (length w))); [lia | reflexivity].
  - destruct (Z.ltb_spec index 0); [| lia].
    destruct (Z.leb_spec 0 (index + Z.of_nat (length w))); [| lia].
    destruct (Z.ltb_spec (index + Z.of_nat (length w)) (Z.of_nat (length w)));
      [| lia].
    destruct (lookup_lt_is_Some_2 w (Z.to_nat (index + Z.of_nat (length w))))
      as (x & Hx); [lia |].
    exists x. simpl. rewrite Hx. split; reflexivity.
  - destruct (Z.ltb_spec index 0); [lia |].
    destruct (Z.leb_spec 0 index); [| lia].
    destruct (Z.ltb_spec index (Z.of_nat (length w))); [| lia].
    destruct (lookup_lt_is_Some_2 w (Z.to_nat index)) as (x & Hx); [lia |].
    exists x. simpl. rewrite Hx. split; reflexivity.
Qed.

Lemma Word_getitem_index_witness :
  Word_getitem [Bit "a" 0; Bit "a" 1] 2 [] = Raise IndexError /\
  Word_getitem [Bit "a" 0; Bit "a" 1] (-1) [] = Ok (Bit "a" 1) [].
Proof.
  split.
  - apply (proj1 (Word_getitem_index [Bit "a" 0; Bit "a" 1] 2 [])). simpl. lia.
  - destruct (proj1 (proj2 (Word_getitem_index [Bit "a" 0; Bit "a" 1] (-1) [])))
      as (x & Hx & E); [simpl; lia |].
    simpl in Hx. inversion Hx; subst x. exact E.
Defined.

(** ** More on [XOR.optimize] *)

Lemma first_occurrences_sublist (l : list item) :
  first_occurrences l `sublist_of` l.
Proof.
  induction l as [|x l IH]; simpl; [constructor |].
  apply sublist_skip. etrans; [apply sublist_filter | exact IH].
Qed.

(** X3: [optimize] only removes operands: the new operand list is a
    subsequence of the old one (nothing is added, nothing is reordered),
    so it is never longer. *)
Theorem optimize_items_sublist (L : list item) :
  optimize_items L `sublist_of` L /\ length (optimize_items L) <= length L.
Proof.
  assert (H : optimize_items L `sublist_of` L).
  { rewrite optimize_items_spec.
    etrans; [apply sublist_filter | apply first_occurrences_sublist]. }
  split; [exact H | apply sublist_length, H].
Qed.

(** X4: [optimize] leaves alone an [XOR] whose operands are pairwise
    different (no bit with the same name and index twice, no object
    twice): the store does not change. *)
Theorem XOR_optimize_NoDup (l : loc) (L : list item) (h : heap) :
  h !! l = Some L -> NoDup L ->
  optimize_items L = L /\ XOR_optimize l h = Ok tt h.
Proof.
  intros Hl Hnd.
  assert (E : optimize_items L = L).
  { rewrite optimize_items_spec, first_occurrences_id by exact Hnd.
    apply filter_all. intros x Hx. unfold survives.
    rewrite (occurrences_NoDup x L Hnd Hx).
    destruct (isinstance_Bit x); exact I. }
  split; [exact E |].
  unfold XOR_optimize. rewrite Hl, E, list_insert_id by exact Hl. reflexivity.
Qed.

Lemma XOR_optimize_NoDup_witness :
  XOR_optimize 0 [[Bit "a" 0; Bit "b" 0; Ref 3]]
  = Ok tt [[Bit "a" 0; Bit "b" 0; Ref 3]].
Proof.
  apply (XOR_optimize_NoDup 0 [Bit "a" 0; Bit "b" 0; Ref 3]
           [[Bit "a" 0; Bit "b" 0; Ref 3]]).
  - reflexivity.
  - repeat constructor; rewrite ?elem_of_cons, ?elem_of_nil;
      intros H; repeat (destruct H as [H|H]; try discriminate); exact H.
Defined.

Lemma occurrences_Permutation (x : item) (L1 L2 : list item) :
  L1 ≡ₚ L2 -> occurrences x L1 = occurrences x L2.
Proof. intros H. unfold occurrences. rewrite H. reflexivity. Qed.

(** X5: which operands [optimize] keeps does not depend on their order:
    operand lists that are permutations of each other are optimized to
    permutations of each other. *)
Theorem optimize_items_Permutation (L1 L2 : list item) :
  L1 ≡ₚ L2 -> optimize_items L1 ≡ₚ optimize_items L2.
Proof.
  intros H. apply NoDup_Permutation; try apply optimize_items_NoDup.
  intros x. rewrite !optimize_items_elem. unfold survives.
  rewrite (occurrences_Permutation x L1 L2 H), H. reflexivity.
Qed.

Lemma optimize_items_Permutation_witness :
  optimize_items [Bit "a" 0; Bit "b" 0; Bit "a" 0; Bit "c" 0]
  ≡ₚ optimize_items [Bit "c" 0; Bit "a" 0; Bit "a" 0; Bit "b" 0].
Proof.
  apply (optimize_items_Permutation
           [Bit "a" 0; Bit "b" 0; Bit "a" 0; Bit "c" 0]
           [Bit "c" 0; Bit "a" 0; Bit "a" 0; Bit "b" 0]).
  change ([Bit "a" 0; Bit "b" 0; Bit "a" 0] ++ [Bit "c" 0] ≡ₚ
          [Bit "c" 0] ++ [Bit "a" 0; Bit "a" 0; Bit "b" 0]).
  rewrite (comm (++)). apply Permutation_app_head.
  apply perm_skip, perm_swap.
Defined.

Lemma optimize_items_even (L : list item) :
  Forall (fun b => isinstance_Bit b = true) L ->
  (forall x, Nat.even (occurrences x L) = true) ->
  optimize_items L = [].
Proof.
  intros Hb Heven.
  destruct (optimize_items L) as [|x rest] eqn:Eo; [reflexivity |].
  assert (Hx : x ∈ optimize_items L) by (rewrite Eo; apply elem_of_cons; auto).
  apply optimize_items_elem in Hx. destruct Hx as [Hin Hs].
  rewrite Forall_forall in Hb. unfold survives in Hs.
  rewrite (Hb x Hin) in Hs. simpl in Hs.
  rewrite <- Nat.negb_even, Heven in Hs. discriminate.
Qed.

(** X6: an operand list of bits in which every bit occurs an even number of
    times, such as that of [XOR(b, b)], is optimized to the empty list; the
    object then renders as ["()"], which Python reads as the empty tuple,
    not as the integer 0. *)
Theorem XOR_optimize_cancels_all (l : loc) (L : list item) (h : heap)
    (fuel : nat) (rho : string -> option pyval) :
  h !! l = Some L ->
  Forall (fun b => isinstance_Bit b = true) L ->
  (forall x, Nat.even (occurrences x L) = true) ->
  optimize_items L = [] /\
  exists h' e,
    XOR_optimize l h = Ok tt h' /\ h' !! l = Some [] /\
    item_py (S fuel) h' (Ref l) = Some e /\
    eval_expr rho e = inr VEmptyTuple.
Proof.
  intros Hl Hb Heven.
  assert (E : optimize_items L = []) by (apply optimize_items_even; assumption).
  split; [exact E |].
  exists (<[l := []]> h), (EXor []).
  assert (Hl' : (<[l := []]> h) !! l = Some [])
    by (apply list_lookup_insert_eq; eapply lookup_lt_Some; eauto).
  split; [unfold XOR_optimize; rewrite Hl, E; reflexivity |].
  split; [exact Hl' |]. split; [| reflexivity].
  simpl. rewrite Hl'. reflexivity.
Qed.

Lemma XOR_optimize_cancels_all_witness :
  optimize_items [Bit "a" 0; Bit "a" 0] = [].
Proof.
  apply (XOR_optimize_cancels_all 0 [Bit "a" 0; Bit "a" 0]
           [[Bit "a" 0; Bit "a" 0]] 0 (fun _ => None)).
  - reflexivity.
  - repeat constructor.
  - intros x. rewrite !occurrences_cons.
    destruct (decide (Bit "a" 0 = x)); reflexivity.
Defined.

(** ** [Word.optimize] and [Word.flatten] on any word *)

Lemma Word_optimize_objects (w : list item) :
  forall (h h' : heap),
    Word_optimize w h = Ok tt h' ->
    length h' = length h /\
    forall k L, h !! k = Some L ->
      h' !! k = Some (if decide (Ref k ∈ w) then optimize_items L else L).
Proof.
  unfold Word_optimize.
  induction w as [|y w IH]; intros h h' E.
  - simpl in E. inversion E; subst h'. split; [reflexivity |].
    intros k L Hk. rewrite decide_False by (apply not_elem_of_nil). exact Hk.
  - simpl in E. unfold bind in E.
    destruct y as [name index|l].
    + simpl in E. destruct (IH h h' E) as [Hlen Hobj]. split; [exact Hlen |].
      intros k L Hk. rewrite (Hobj k L Hk).
      destruct (decide (Ref k ∈ w)) as [Hin|Hin].
      * rewrite decide_True by (apply elem_of_cons; auto). reflexivity.
      * rewrite decide_False; [reflexivity |].
        rewrite elem_of_cons. intros [H|H]; [discriminate | contradiction].
    + simpl in E. unfold XOR_optimize in E.
      destruct (h !! l) as [Ll|] eqn:Hl; [| discriminate].
      destruct (IH _ h' E) as [Hlen Hobj]. rewrite length_insert in Hlen.
      split; [exact Hlen |]. intros k L Hk.
      destruct (decide (k = l)) as [->|Hne].
      * rewrite Hl in Hk. inversion Hk; subst Ll.
        rewrite decide_True by (apply elem_of_cons; auto).
        rewrite (Hobj l (optimize_items L))
          by (apply list_lookup_insert_eq; eapply lookup_lt_Some; eauto).
        rewrite optimize_items_idempotent.
        destruct (decide (Ref l ∈ w)); reflexivity.
      * rewrite (Hobj k L) by (rewrite list_lookup_insert_ne by congruence; exact Hk).
        destruct (decide (Ref k ∈ w)) as [Hin|Hin].
        -- rewrite decide_True by (apply elem_of_cons; auto). reflexivity.
        -- rewrite decide_False; [reflexivity |].
           rewrite elem_of_cons. intros [H|H]; [congruence | contradiction].
Qed.

(** X7: [Word.optimize] changes exactly the objects that are elements of
    the word: each of them ends with its operand list optimized, once
    however many times the word holds it; every other object of the store,
    in particular every operand of an element, keeps its operands, and no
    object is created. *)
Theorem Word_optimize_frame (w : list item) (h h' : heap) :
  Word_optimize w h = Ok tt h' ->
  length h' = length h /\
  (forall k L, h !! k = Some L -> Ref k ∈ w ->
               h' !! k = Some (optimize_items L)) /\
  (forall k, Ref k ∉ w -> h' !! k = h !! k).
Proof.
  intros E. destruct (Word_optimize_objects w h h' E) as [Hlen Hobj].
  split; [exact Hlen |]. split.
  - intros k L Hk Hin. rewrite (Hobj k L Hk), decide_True by exact Hin. reflexivity.
  - intros k Hin. destruct (h !! k) as [L|] eqn:Hk.
    + rewrite (Hobj k L Hk), decide_False by exact Hin. reflexivity.
    + apply lookup_ge_None. rewrite Hlen. apply lookup_ge_None. exact Hk.
Qed.

Lemma Word_optimize_frame_witness :
  length [[Bit "a" 0; Bit "a" 0; Bit "b" 0]; [Ref 0]] = 2 /\
  [[Bit "a" 0; Bit "a" 0; Bit "b" 0]; [Ref 0]] !! 0 =
  Some [Bit "a" 0; Bit "a" 0; Bit "b" 0].
Proof.
  destruct (Word_optimize_frame [Ref 1; Ref 1]
              [[Bit "a" 0; Bit "a" 0; Bit "b" 0]; [Ref 0; Ref 0]]
              [[Bit "a" 0; Bit "a" 0; Bit "b" 0]; [Ref 0]] eq_refl)
    as (Hlen & _ & Hother).
  split; [exact Hlen |]. apply (Hother 0).
  rewrite !elem_of_cons, elem_of_nil.
  intros H; repeat (destruct H as [H|H]; try discriminate); exact H.
Defined.

Lemma allBitsRecursive_bits (fuel : nat) (h : heap) :
  forall (x : item) (bits : list item),
    allBitsRecursive fuel h x = Some bits ->
    Forall (fun b => isinstance_Bit b = true) bits.
Proof.
  induction fuel as [|fuel IH]; intros x bits E.
  - destruct x; [inversion E; repeat constructor | discriminate].
  - destruct x as [name index|l]; [inversion E; repeat constructor |].
    simpl in E. destruct (h !! l) as [items|]; [| discriminate].
    revert bits E. induction items as [|y items IHi]; intros bits E.
    + inversion E. constructor.
    + simpl in E. fold (yield_from (allBitsRecursive fuel h) items) in E.
      destruct (allBitsRecursive fuel h y) as [bs|] eqn:Ey; [| discriminate].
      destruct (yield_from (allBitsRecursive fuel h) items) as [rest|];
        [| discriminate].
      inversion E; subst bits. apply Forall_app. split; [eapply IH; eauto | auto].
Qed.

Lemma flatten_loop_result (fuel : nat) (items : list item) :
  forall (newItems : list item) (h : heap) (w' : list item) (h' : heap),
    flatten_loop fuel items newItems h = Ok w' h' ->
    exists bitss,
      h' = h ++ bitss /\
      w' = newItems ++ map Ref (seq (length h) (length items)) /\
      Forall2 (fun x bits => isinstance_XOR x = true /\
                             allBitsRecursive fuel h' x = Some bits /\
                             2 <= length bits) items bitss.
Proof.
  induction items as [|x items IH]; intros newItems h w' h' E.
  - simpl in E. inversion E; subst. exists [].
    rewrite !app_nil_r. repeat split. constructor.
  - simpl in E. destruct (isinstance_XOR x) eqn:Hx; [| discriminate].
    destruct (allBitsRecursive fuel h x) as [bits|] eqn:Eb; [| discriminate].
    unfold bind in E.
    destruct (Nat.le_gt_cases 2 (length bits)) as [Hlen|Hlen].
    + rewrite XOR_init_ok in E by exact Hlen.
      destruct (IH _ _ _ _ E) as (bitss & -> & -> & Hall).
      exists (bits :: bitss). split; [rewrite <- app_assoc; reflexivity |].
      split.
      * rewrite length_app, Nat.add_1_r, <- app_assoc. reflexivity.
      * constructor; [| exact Hall]. split; [exact Hx |]. split; [| exact Hlen].
        eapply allBitsRecursive_mono; [exact Eb | lia |].
        rewrite <- app_assoc. apply prefix_app_r. reflexivity.
    + rewrite XOR_init_short in E by exact Hlen. discriminate.
Qed.

Lemma Word_flatten_inv (fuel : nat) (w : list item) (h : heap)
    (w' : list item) (h' : heap) :
  Word_flatten fuel w h = Ok w' h' ->
  exists bitss,
    h' = h ++ bitss /\
    length bitss = length w /\
    w' = map Ref (seq (length h) (length w)) /\
    Forall2 (fun x bits => isinstance_XOR x = true /\
                           allBitsRecursive fuel h' x = Some bits /\
                           2 <= length bits /\
                           Forall (fun b => isinstance_Bit b = true) bits)
            w bitss.
Proof.
  intros E. destruct (flatten_loop_result fuel w [] h w' h' E)
    as (bitss & Hh & Hw & Hall).
  exists bitss. split; [exact Hh |].
  split; [symmetry; eapply Forall2_length; eauto |]. split; [exact Hw |].
  eapply Forall2_impl; [exact Hall |].
  intros x bits (Hx & Eb & Hlen). repeat split; auto.
  eapply allBitsRecursive_bits; eauto.
Qed.


(** X8: when [Word.flatten] returns, the store has grown by exactly one new
    object per position and no existing object has changed; position [i]
    of the word is the [i]-th new object, and its operands are the leaves
    of the former element, all of them bits and at least two. *)
Theorem Word_flatten_result (fuel : nat) (w : list item) (h : heap)
    (w' : list item) (h' : heap) :
  Word_flatten fuel w h = Ok w' h' ->
  exists bitss,
    h' = h ++ bitss /\
    length bitss = length w /\
    w' = map Ref (seq (length h) (length w)) /\
    Forall2 (fun x bits => isinstance_XOR x = true /\
                           allBitsRecursive fuel h' x = Some bits /\
                           2 <= length bits /\
                           Forall (fun b => isinstance_Bit b = true) bits)
            w bitss.
Proof. apply Word_flatten_inv. Qed.

Lemma Word_flatten_result_witness :
  let h := [[Bit "a" 0; Bit "b" 0]; [Ref 0; Bit "c" 0]] in
  exists bitss,
    [[Bit "a" 0; Bit "b" 0]; [Ref 0; Bit "c" 0];
     [Bit "a" 0; Bit "b" 0; Bit "c" 0]] = h ++ bitss /\
    length bitss = 1.
Proof.
  intros h.
  destruct (Word_flatten_result 2 [Ref 1] h [Ref 2]
              [[Bit "a" 0; Bit "b" 0]; [Ref 0; Bit "c" 0];
               [Bit "a" 0; Bit "b" 0; Bit "c" 0]] eq_refl)
    as (bitss & Hh & Hlen & _).
  exists bitss. split; assumption.
Defined.

(** X9: [flatten] followed by [optimize], as [__gen] runs them, never
    touches the objects that existed before: the former store is a prefix
    of the new one, which holds one more object per position, each with
    pairwise different bits as operands. *)
Theorem flatten_optimize_fresh (fuel : nat) (w : list item) (h : heap)
    (w' : list item) (h' : heap) :
  (let* w1 := Word_flatten fuel w in
   let* _ := Word_optimize w1 in ret w1) h = Ok w' h' ->
  h `prefix_of` h' /\
  length h' = length h + length w /\
  w' = map Ref (seq (length h) (length w)) /\
  forall k, length h <= k < length h' ->
    exists ops, h' !! k = Some ops /\ NoDup ops /\
                Forall (fun b => isinstance_Bit b = true) ops.
Proof.
  unfold bind. intros E.
  destruct (Word_flatten fuel w h) as [w1 h1| |] eqn:Ef; try discriminate.
  destruct (Word_flatten_inv fuel w h w1 h1 Ef) as (bitss & -> & Hlen & -> & Hall).
  rewrite <- Hlen in E. rewrite Word_optimize_fresh in E.
  inversion E; subst w' h'. clear E.
  split; [apply prefix_app_r; reflexivity |].
  split; [rewrite length_app, length_map; lia |].
  split; [rewrite Hlen; reflexivity |].
  intros k Hk. rewrite length_app, length_map in Hk.
  rewrite lookup_app_r by lia. rewrite list_lookup_fmap.
  destruct (lookup_lt_is_Some_2 bitss (k - length h)) as (bits & Hbits); [lia |].
  rewrite Hbits. exists (optimize_items bits). split; [reflexivity |].
  split; [apply optimize_items_NoDup |].
  destruct (Forall2_lookup_r _ _ _ _ _ Hall Hbits) as (x & _ & _ & _ & _ & Hb).
  apply Forall_forall. intros y Hy. apply optimize_items_elem in Hy.
  rewrite Forall_forall in Hb. apply Hb, Hy.
Qed.

Lemma flatten_optimize_fresh_witness :
  let h := [[Bit "a" 0; Bit "b" 0]; [Ref 0; Bit "a" 0]] in
  h `prefix_of` [[Bit "a" 0; Bit "b" 0]; [Ref 0; Bit "a" 0]; [Bit "b" 0]].
Proof.
  intros h.
  apply (flatten_optimize_fresh 2 [Ref 1] h [Ref 2]
           [[Bit "a" 0; Bit "b" 0]; [Ref 0; Bit "a" 0]; [Bit "b" 0]]).
  reflexivity.
Defined.

(** ** The formulas that [__gen] returns *)

Lemma optimize_items_bit (name : string) (index : Z) (L : list item) :
  Bit name index ∈ optimize_items L <->
  Nat.odd (occurrences (Bit name index) L) = true.
Proof.
  rewrite optimize_items_elem. unfold survives. simpl. split.
  - intros [_ H]. exact H.
  - intros H. split; [| exact H].
    destruct (decide (Bit name index ∈ L)) as [Hin|Hin]; [exact Hin |].
    rewrite occurrences_0 in H by exact Hin. discriminate.
Qed.

(** Every property of leaf lists that holds of the pairs of the base word
    and is kept by concatenation holds of the leaves of every position of
    every word of the unrolling. *)
Lemma unroll_leaves (Q : list item -> Prop) (dataVarName crcVarName : string)
    (P0 : Z) (h : heap) (ws : list (list item)) (base : list item) :
  (forall i, i < 8 ->
     Q [Bit dataVarName (Z.of_nat i); Bit crcVarName (Z.of_nat i)]) ->
  (forall a b, Q a -> Q b -> Q (a ++ b)) ->
  ws !! 0 = Some base ->
  base_spec dataVarName crcVarName h base ->
  (forall k prev new, ws !! k = Some prev -> ws !! S k = Some new ->
                      round_spec P0 h prev new) ->
  forall k w, ws !! k = Some w ->
    length w = 8 /\
    forall i x, w !! i = Some x ->
      exists bits, allBitsRecursive (S k) h x = Some bits /\ Q bits.
Proof.
  intros Hbase Happ H0 Hb Hchain. induction k as [|k IH]; intros w Hw.
  - rewrite H0 in Hw. inversion Hw; subst w. destruct Hb as [Hlen Hpos].
    split; [exact Hlen |]. intros i x Hx.
    assert (Hi : i < 8) by (rewrite <- Hlen; eapply lookup_lt_Some; eauto).
    destruct (Hpos i Hi) as (x' & Hx' & l & -> & Hl).
    rewrite Hx in Hx'. inversion Hx'; subst x.
    eexists. split; [simpl; rewrite Hl; reflexivity | apply Hbase, Hi].
  - assert (Hk : k < length ws) by (apply lookup_lt_Some in Hw; lia).
    destruct (lookup_lt_is_Some_2 ws k Hk) as (prev & Hprev).
    destruct (IH prev Hprev) as [_ IHpos].
    destruct (Hchain k prev w Hprev Hw) as (Hlen & Hpos & (b7 & Hb7 & Hnew0)).
    split; [exact Hlen |]. intros i x Hx.
    assert (Hi : i < 8) by (rewrite <- Hlen; eapply lookup_lt_Some; eauto).
    destruct (IHpos 7 b7 Hb7) as (bitsb & Eb & Qb).
    destruct i as [|i].
    + rewrite Hnew0 in Hx. inversion Hx; subst x.
      exists bitsb. split; [| exact Qb].
      eapply allBitsRecursive_mono; [exact Eb | lia | reflexivity].
    + destruct (Hpos (S i) ltac:(lia)) as (a & b & x' & Ha & Hb' & Hx' & Hc).
      rewrite Hx in Hx'. inversion Hx'; subst x'.
      rewrite Hb7 in Hb'. inversion Hb'; subst b.
      destruct (IHpos _ a Ha) as (bitsa & Ea & Qa).
      unfold combine_spec in Hc. destruct (Z.testbit P0 (Z.of_nat (S i))).
      * destruct Hc as (l & -> & Hl). exists (bitsa ++ bitsb).
        split; [| apply Happ; assumption].
        change (allBitsRecursive (S (S k)) h (Ref l)) with
          (match h !! l with
           | Some items => yield_from (allBitsRecursive (S k) h) items
           | None => None
           end).
        rewrite Hl. unfold yield_from. cbn [foldr].
        rewrite Ea, Eb, app_nil_r. reflexivity.
      * subst x. exists bitsa. split; [| exact Qa].
        eapply allBitsRecursive_mono; [exact Ea | lia | reflexivity].
Qed.

Lemma gen_unroll_prefix (self : CrcGen) (dataVarName crcVarName : string)
    (h : heap) (word : list item) (h1 : heap) :
  gen_unroll self dataVarName crcVarName h = Ok word h1 -> h `prefix_of` h1.
Proof.
  unfold gen_unroll, bind.
  destruct (gen_base_spec dataVarName crcVarName h) as (base & h0 & E0 & Hp0 & Hb).
  rewrite E0.
  destruct (gen_rounds_spec self 8 base h0 (proj1 Hb))
    as (ws & word' & h' & E & Hp & _).
  rewrite E. intros H. inversion H; subst. etrans; eassumption.
Qed.

(** The operand lists that [__gen] returns are the optimized leaves of the
    unrolling, which satisfy every property [Q] as in [unroll_leaves]. *)
Lemma gen_leaves (Q : list item -> Prop) (fuel : nat) (self : CrcGen)
    (dataVarName crcVarName : string) (h : heap) :
  nrBits self = 8%Z -> 9 <= fuel ->
  (forall i, i < 8 ->
     Q [Bit dataVarName (Z.of_nat i); Bit crcVarName (Z.of_nat i)]) ->
  (forall a b, Q a -> Q b -> Q (a ++ b)) ->
  exists (h1 : heap) (bitss : list (list item)),
    h `prefix_of` h1 /\
    gen fuel self dataVarName crcVarName h =
      Ok (map Ref (seq (length h1) 8)) (h1 ++ map optimize_items bitss) /\
    length bitss = 8 /\
    Forall Q bitss.
Proof.
  intros Hw Hfuel Hbase Happ.
  destruct (gen_result fuel self dataVarName crcVarName h Hw Hfuel)
    as (word & h1 & bitss & E & Hinv & Hlen & _ & Hfl & Hgen).
  exists h1, bitss. split; [eapply gen_unroll_prefix; eauto |].
  split; [exact Hgen |]. split; [exact Hlen |].
  destruct (gen_unroll_chain self dataVarName crcVarName h)
    as (ws & base & word' & h1' & E' & _ & H0 & H8 & Hb & Hchain).
  rewrite E in E'. inversion E'; subst word' h1'. clear E'.
  destruct (unroll_leaves Q dataVarName crcVarName (P self) h1 ws base
              Hbase Happ H0 Hb Hchain 8 word H8) as [_ Hleaves].
  destruct (Word_flatten_inv fuel word h1 _ _ Hfl)
    as (bitss' & Hh & _ & _ & Hall).
  apply app_inv_head in Hh. subst bitss'.
  apply Forall_lookup. intros i bits Hbits.
  destruct (Forall2_lookup_r _ _ _ _ _ Hall Hbits) as (x & Hx & _ & Eb & _).
  destruct (Hleaves i x Hx) as (bits0 & Eb0 & Qb).
  rewrite (allBitsRecursive_mono 9 h1 x bits0 fuel (h1 ++ bitss) Eb0 Hfuel) in Eb
    by (apply prefix_app_r; reflexivity).
  inversion Eb; subst bits0. exact Qb.
Qed.

Lemma input_bit_is_Bit (dataVarName crcVarName : string) (bits : list item) :
  Forall (input_bit dataVarName crcVarName) bits ->
  Forall (fun b => isinstance_Bit b = true) bits.
Proof.
  intros H. eapply Forall_impl; [exact H |].
  intros x (n & k & -> & _). reflexivity.
Qed.

(** X10: for width 8 and a recursion depth of 9 or more, [__gen] returns,
    whatever the polynomial and the names: the word is made of 8 new
    objects, allocated last and in the order of the positions; the
    operands of each are bits 0..7 of the two variables, none of them
    twice; and [__gen] changes no object that existed before the call. *)
Theorem gen_result_shape (fuel : nat) (self : CrcGen)
    (dataVarName crcVarName : string) (h : heap) :
  nrBits self = 8%Z -> 9 <= fuel ->
  exists (h1 : heap) (objs : list (list item)),
    gen fuel self dataVarName crcVarName h =
      Ok (map Ref (seq (length h1) 8)) (h1 ++ objs) /\
    h `prefix_of` h1 /\
    length objs = 8 /\
    Forall (fun ops => NoDup ops /\
                       Forall (input_bit dataVarName crcVarName) ops) objs.
Proof.
  intros Hw Hfuel.
  destruct (gen_leaves (Forall (input_bit dataVarName crcVarName))
              fuel self dataVarName crcVarName h Hw Hfuel)
    as (h1 & bitss & Hp & Hgen & Hlen & Hall).
  - intros i Hi. repeat constructor.
    + eexists _, _. split; [reflexivity |]. split; [auto | lia].
    + eexists _, _. split; [reflexivity |]. split; [auto | lia].
  - intros a b Ha Hb. apply Forall_app. auto.
  - exists h1, (map optimize_items bitss). split; [exact Hgen |].
    split; [exact Hp |]. split; [rewrite length_map; exact Hlen |].
    apply Forall_fmap. eapply Forall_impl; [exact Hall |].
    intros bits Hb. simpl. split; [apply optimize_items_NoDup |].
    apply Forall_forall. intros x Hx. apply optimize_items_elem in Hx.
    rewrite Forall_forall in Hb. apply Hb, Hx.
Qed.

Lemma gen_result_shape_witness :
  exists (h1 : heap) (objs : list (list item)),
    gen 9 {| P := 7; nrBits := 8 |} "data" "crc" [] =
      Ok (map Ref (seq (length h1) 8)) (h1 ++ objs) /\
    [] `prefix_of` h1 /\
    length objs = 8 /\
    Forall (fun ops => NoDup ops /\ Forall (input_bit "data" "crc") ops) objs.
Proof.
  apply (gen_result_shape 9 {| P := 7; nrBits := 8 |} "data" "crc" []).
  - reflexivity.
  - lia.
Defined.

(** X11: when the two variables have different names, every formula that
    [__gen] returns reads bit [i] of the data variable exactly when it
    reads bit [i] of the register variable: the formulas are functions of
    [data ^ crc]. *)
Theorem gen_pairs_data_with_crc (fuel : nat) (self : CrcGen)
    (dataVarName crcVarName : string) (h : heap) :
  nrBits self = 8%Z -> 9 <= fuel -> dataVarName <> crcVarName ->
  exists (h1 : heap) (objs : list (list item)),
    gen fuel self dataVarName crcVarName h =
      Ok (map Ref (seq (length h1) 8)) (h1 ++ objs) /\
    length objs = 8 /\
    forall ops index, ops ∈ objs ->
      (Bit dataVarName index ∈ ops <-> Bit crcVarName index ∈ ops).
Proof.
  intros Hw Hfuel Hne.
  destruct (gen_leaves
              (fun bits => forall index,
                 occurrences (Bit dataVarName index) bits =
                 occurrences (Bit crcVarName index) bits)
              fuel self dataVarName crcVarName h Hw Hfuel)
    as (h1 & bitss & _ & Hgen & Hlen & Hall).
  - intros i _ index. rewrite !occurrences_cons.
    unfold occurrences. simpl.
    destruct (decide (Bit dataVarName (Z.of_nat i) = Bit dataVarName index)) as [E1|N1];
    destruct (decide (Bit crcVarName (Z.of_nat i) = Bit crcVarName index)) as [E2|N2];
    destruct (decide (Bit crcVarName (Z.of_nat i) = Bit dataVarName index)) as [E3|N3];
    destruct (decide (Bit dataVarName (Z.of_nat i) = Bit crcVarName index)) as [E4|N4];
      try congruence; try reflexivity.
  - intros a b Ha Hb index. rewrite !occurrences_app, Ha, Hb. reflexivity.
  - exists h1, (map optimize_items bitss). split; [exact Hgen |].
    split; [rewrite length_map; exact Hlen |].
    intros ops index Hops. apply list_elem_of_fmap in Hops.
    destruct Hops as (bits & -> & Hbits).
    rewrite Forall_forall in Hall.
    rewrite !optimize_items_bit, (Hall bits Hbits index). reflexivity.
Qed.

Lemma gen_pairs_data_with_crc_witness :
  exists (h1 : heap) (objs : list (list item)),
    gen 9 {| P := 7; nrBits := 8 |} "data" "crc" [] =
      Ok (map Ref (seq (length h1) 8)) (h1 ++ objs) /\
    length objs = 8 /\
    forall ops index, ops ∈ objs ->
      (Bit "data" index ∈ ops <-> Bit "crc" index ∈ ops).
Proof.
  apply (gen_pairs_data_with_crc 9 {| P := 7; nrBits := 8 |} "data" "crc" []).
  - reflexivity.
  - lia.
  - discriminate.
Defined.

(** X12: the names are not checked: when the data and the register
    variable are given the same name, every bit of every formula cancels
    and [__gen] returns 8 exclusive-ors without operands. *)
Theorem gen_same_name_cancels (fuel : nat) (self : CrcGen) (varName : string)
    (h : heap) :
  nrBits self = 8%Z -> 9 <= fuel ->
  exists h1 : heap,
    gen fuel self varName varName h =
      Ok (map Ref (seq (length h1) 8)) (h1 ++ replicate 8 []).
Proof.
  intros Hw Hfuel.
  destruct (gen_leaves
              (fun bits => Forall (fun b => isinstance_Bit b = true) bits /\
                           forall x, Nat.even (occurrences x bits) = true)
              fuel self varName varName h Hw Hfuel)
    as (h1 & bitss & _ & Hgen & Hlen & Hall).
  - intros i _. split; [repeat constructor |].
    intros x. rewrite !occurrences_cons.
    destruct (decide (Bit varName (Z.of_nat i) = x)); reflexivity.
  - intros a b [Ha1 Ha2] [Hb1 Hb2]. split; [apply Forall_app; auto |].
    intros x. rewrite occurrences_app, Nat.even_add, Ha2, Hb2. reflexivity.
  - exists h1. rewrite Hgen. do 2 f_equal.
    assert (G : forall l : list (list item),
               Forall (fun bits =>
                         Forall (fun b => isinstance_Bit b = true) bits /\
                         forall x, Nat.even (occurrences x bits) = true) l ->
               map optimize_items l = replicate (length l) []).
    { induction 1 as [|bits l [Hb He] _ IH]; [reflexivity |].
      simpl. rewrite IH, (optimize_items_even bits Hb He). reflexivity. }
    rewrite (G bitss Hall), Hlen. reflexivity.
Qed.

Lemma gen_same_name_cancels_witness :
  exists h1 : heap,
    gen 9 {| P := 7; nrBits := 8 |} "x" "x" [] =
      Ok (map Ref (seq (length h1) 8)) (h1 ++ replicate 8 []).
Proof.
  apply (gen_same_name_cancels 9 {| P := 7; nrBits := 8 |} "x" []).
  - reflexivity.
  - lia.
Defined.

(** ** Polynomials outside 1..255 *)

Lemma testbit_low_byte (z k : Z) :
  (k < 8)%Z -> Z.testbit (z mod 256) k = Z.testbit z k.
Proof.
  intros Hk. change 256%Z with (2 ^ 8)%Z. apply Z.mod_pow2_bits_low, Hk.
Qed.

Lemma odd_low_byte (z : Z) : Z.odd (z mod 256) = Z.odd z.
Proof. rewrite <- !Z.bit0_odd. apply testbit_low_byte. lia. Qed.

Lemma crc8_step_low_byte (P0 x : Z) :
  crc8_step (P0 mod 256) x = crc8_step P0 x.
Proof.
  unfold crc8_step. destruct (negb (Z.land x 128 =? 0)%Z); [| reflexivity].
  apply Z.bits_inj'. intros k Hk.
  rewrite !Z.land_spec, !Z.lxor_spec.
  destruct (Z.ltb_spec k 8) as [Hlt|Hge].
  - rewrite testbit_low_byte by exact Hlt. reflexivity.
  - change 255%Z with (Z.ones 8). rewrite Z.ones_spec_high by lia.
    rewrite !andb_false_r. reflexivity.
Qed.

Lemma crc8_ref_low_byte (c0 d0 P0 : Z) :
  crc8_ref c0 d0 (P0 mod 256) = crc8_ref c0 d0 P0.
Proof.
  unfold crc8_ref. simpl Nat.iter. rewrite !crc8_step_low_byte. reflexivity.
Qed.

Lemma p_low_byte (self : CrcGen) (a : option item) (b : item) (bitNr : Z)
    (h : heap) :
  (bitNr < 8)%Z -> p (low_byte self) a b bitNr h = p self a b bitNr h.
Proof.
  intros Hn. unfold p. destruct a as [a'|]; [| reflexivity].
  destruct (Z.ltb_spec bitNr 0); [reflexivity |].
  rewrite !shift_land_testbit by lia. unfold low_byte. cbn [P].
  rewrite testbit_low_byte by exact Hn. reflexivity.
Qed.

Lemma p_at_low_byte (self : CrcGen) (prev : list item) (ai : option Z)
    (bitNr : Z) (h : heap) :
  (bitNr < 8)%Z ->
  p_at (low_byte self) prev ai bitNr h = p_at self prev ai bitNr h.
Proof.
  intros Hn. unfold p_at, bind.
  destruct ai as [i|].
  - destruct (Word_getitem prev i h) as [x h1| |]; try reflexivity.
    unfold ret. destruct (Word_getitem prev 7 h1) as [y h2| |]; try reflexivity.
    rewrite p_low_byte by exact Hn. reflexivity.
  - unfold ret. destruct (Word_getitem prev 7 h) as [y h2| |]; try reflexivity.
Qed.

Lemma gen_round_low_byte (self : CrcGen) (prev : list item) (h : heap) :
  gen_round (low_byte self) prev h = gen_round self prev h.
Proof.
  unfold gen_round, bind.
  repeat (rewrite p_at_low_byte by lia;
          match goal with
          | |- context [p_at self prev ?ai ?n ?h0] =>
              destruct (p_at self prev ai n h0) as [? ?| |]; try reflexivity
          end).
Qed.

Lemma gen_rounds_low_byte (self : CrcGen) (n : nat) :
  forall (prev : list item) (h : heap),
    gen_rounds (low_byte self) n prev h = gen_rounds self n prev h.
Proof.
  induction n as [|n IH]; intros prev h; [reflexivity |].
  simpl. unfold bind. rewrite gen_round_low_byte.
  destruct (gen_round self prev h) as [w h1| |]; try reflexivity. apply IH.
Qed.

Lemma gen_low_byte (fuel : nat) (self : CrcGen) (dataVarName crcVarName : string)
    (h : heap) :
  gen fuel (low_byte self) dataVarName crcVarName h =
  gen fuel self dataVarName crcVarName h.
Proof.
  unfold gen, bind. simpl nrBits.
  destruct (assert (nrBits self =? 8)%Z h) as [u h0| |]; try reflexivity.
  unfold gen_unroll, bind.
  destruct (gen_base dataVarName crcVarName h0) as [base h1| |]; try reflexivity.
  rewrite gen_rounds_low_byte. reflexivity.
Qed.

(** X13: [__gen] and the reference only look at the 8 low bits of the
    polynomial: a generator built with any integer, negative or above 255,
    returns the formulas of the polynomial reduced modulo 256, [crc8_ref]
    computes the same CRC for both, and both are odd or both even. *)
Theorem polynomial_low_byte (fuel : nat) (self : CrcGen)
    (dataVarName crcVarName : string) (h : heap) (c0 d0 : Z) :
  gen fuel self dataVarName crcVarName h =
    gen fuel {| P := P self mod 256; nrBits := nrBits self |}
        dataVarName crcVarName h /\
  crc8_ref c0 d0 (P self) = crc8_ref c0 d0 (P self mod 256) /\
  Z.odd (P self mod 256) = Z.odd (P self).
Proof.
  split; [symmetry; apply (gen_low_byte fuel self) |].
  split; [symmetry; apply crc8_ref_low_byte | apply odd_low_byte].
Qed.

(** ** The generated function, for any names and any odd polynomial *)

Lemma genPython_low_byte (fuel : nat) (self : CrcGen)
    (funcName crcVarName dataVarName : string) (h : heap) (t : text) (h' : heap)
    (c0 d0 : Z) :
  genPython fuel (low_byte self) funcName crcVarName dataVarName h = Ok t h' ->
  exists t',
    genPython fuel self funcName crcVarName dataVarName h = Ok t' h' /\
    call_python t' c0 d0 = call_python t c0 d0.
Proof.
  unfold genPython, bind. rewrite gen_low_byte.
  destruct (gen fuel self dataVarName crcVarName h) as [w h1| |]; try discriminate.
  destruct (render_word (item_py fuel) w h1) as [es h2| |]; try discriminate.
  unfold ret. intros E. inversion E; subst. eexists. split; reflexivity.
Qed.

Lemma genPython_correct_odd (fuel : nat) (self : CrcGen)
    (funcName crcVarName dataVarName : string) (h : heap) :
  Z.odd (P self) = true -> nrBits self = 8%Z ->
  crcVarName <> dataVarName -> crcVarName <> "ret" -> dataVarName <> "ret" ->
  9 <= fuel ->
  exists t h',
    genPython fuel self funcName crcVarName dataVarName h = Ok t h' /\
    forall c0 d0, call_python t c0 d0 = inr (VInt (crc8_ref c0 d0 (P self))).
Proof.
  intros Hodd Hw Hne Hc Hd Hfuel.
  destruct (genPython_correct fuel (low_byte self) funcName crcVarName
              dataVarName h) as (t & h' & E & Hcall); try assumption.
  - simpl. rewrite odd_low_byte. exact Hodd.
  - simpl. pose proof (Z.mod_pos_bound (P self) 256 ltac:(lia)) as Hb.
    assert (Hnz : (P self mod 256 <> 0)%Z).
    { intros H0. pose proof (odd_low_byte (P self)) as Ho.
      rewrite H0, Hodd in Ho. discriminate. }
    lia.
  - destruct (genPython_low_byte fuel self funcName crcVarName dataVarName
                h t h' 0 0 E) as (t' & E' & _).
    exists t', h'. split; [exact E' |]. intros c0 d0.
    destruct (genPython_low_byte fuel self funcName crcVarName dataVarName
                h t h' c0 d0 E) as (t'' & E'' & Hcall').
    rewrite E' in E''. inversion E''; subst t''.
    rewrite Hcall', Hcall. simpl P. rewrite crc8_ref_low_byte. reflexivity.
Qed.




(** ** The emitters and the command line *)

Lemma item_verilog_flat (fuel : nat) (h : heap) (l : loc) (bits : list item) :
  h !! l = Some bits ->
  Forall (fun b => isinstance_Bit b = true) bits ->
  item_verilog (S fuel) h (Ref l) = Some (VXor (map leaf_verilog bits)).
Proof.
  intros Hl Hb. simpl. rewrite Hl. clear Hl.
  assert (G : render_items (item_verilog fuel h) bits =
              Some (map leaf_verilog bits)).
  { induction Hb as [|b bits Hb _ IH]; [reflexivity |].
    simpl. fold (render_items (item_verilog fuel h) bits). rewrite IH.
    destruct b as [name index|]; [| discriminate]. destruct fuel; reflexivity. }
  rewrite G. reflexivity.
Qed.

Lemma render_word_flat_verilog (fuel : nat) (H : heap) (objs : list (list item)) :
  Forall (Forall (fun b => isinstance_Bit b = true)) objs ->
  forall k : nat,
    (forall i bits, objs !! i = Some bits -> H !! (k + i) = Some bits) ->
    render_word (item_verilog (S fuel)) (map Ref (seq k (length objs))) H =
    Ok (map (fun bits => VXor (map leaf_verilog bits)) objs) H.
Proof.
  unfold render_word.
  induction 1 as [|bits objs Hb _ IH]; intros k Hk; [reflexivity |].
  simpl length. simpl seq. simpl map. cbn [mapM]. unfold bind.
  rewrite (item_verilog_flat fuel H k bits); [| | exact Hb].
  - rewrite IH; [reflexivity |].
    intros i bs Hi. rewrite <- (Hk (S i) bs Hi). f_equal. lia.
  - rewrite <- (Hk 0 bits eq_refl). f_equal. lia.
Qed.

(** The formulas that [__gen] returns for an odd 8-bit polynomial and two
    different names. *)
Lemma gen_formulas (fuel : nat) (self : CrcGen)
    (dataVarName crcVarName : string) (h : heap) :
  Z.odd (P self) = true -> (0 < P self <= 255)%Z -> nrBits self = 8%Z ->
  dataVarName <> crcVarName -> 9 <= fuel ->
  exists (h1 : heap) (objs : list (list item)),
    gen fuel self dataVarName crcVarName h =
      Ok (map Ref (seq (length h1) 8)) (h1 ++ objs) /\
    length objs = 8 /\
    forall i bits, objs !! i = Some bits ->
      Forall (input_bit dataVarName crcVarName) bits /\ bits <> [] /\
      forall c0 d0,
        xor_all (bit_value (inputs crcVarName dataVarName c0 d0)) bits =
        Z.testbit (crc8_ref c0 d0 (P self)) (Z.of_nat i).
Proof.
  intros Hodd HP Hw Hne Hfuel.
  destruct (gen_result fuel self dataVarName crcVarName h Hw Hfuel)
    as (word & h1 & bitss & E & Hinv & Hlen & Hsem & Hfl & Hgen).
  exists h1, (map optimize_items bitss). split; [exact Hgen |].
  split; [rewrite length_map; exact Hlen |].
  intros i bits Hi. rewrite list_lookup_fmap in Hi.
  destruct (bitss !! i) as [bs|] eqn:Hbs; [| discriminate].
  inversion Hi; subst bits. clear Hi.
  destruct (Hsem i bs Hbs) as [Hin Hval].
  assert (Hnd : NoDup (filter (fun y => isinstance_XOR y = true) bs)).
  { rewrite filter_XOR_bits; [constructor |].
    eapply input_bit_is_Bit; eauto. }
  assert (Hv : forall c0 d0,
             xor_all (bit_value (inputs crcVarName dataVarName c0 d0))
                     (optimize_items bs) =
             Z.testbit (crc8_ref c0 d0 (P self)) (Z.of_nat i)).
  { intros c0 d0. rewrite xor_all_optimize by exact Hnd.
    apply Hval; assumption. }
  split; [| split; [| exact Hv]].
  - apply Forall_forall. intros x Hx. apply optimize_items_elem in Hx.
    rewrite Forall_forall in Hin. apply Hin, Hx.
  - intros Hnil.
    assert (Hi8 : i < 8) by (rewrite <- Hlen; eapply lookup_lt_Some; eauto).
    destruct (crc8_ref_bit_reached (P self) i Hodd HP Hi8) as (d0 & Hd0).
    specialize (Hv 0%Z d0). rewrite Hnil, Hd0 in Hv. discriminate.
Qed.

Lemma eval_vexpr_leaves (rho : string -> Z -> bool) (bits : list item) :
  Forall (fun b => isinstance_Bit b = true) bits ->
  forall a : bool,
    fold_left (fun acc e' => match acc, eval_vexpr rho e' with
                             | Some a, Some b => Some (xorb a b)
                             | _, _ => None
                             end) (map leaf_verilog bits) (Some a)
    = Some (xorb a (xor_all (bit_value rho) bits)).
Proof.
  induction 1 as [|x bits Hx _ IH]; intros a; simpl.
  - rewrite xorb_false_r. reflexivity.
  - destruct x as [name index|]; [| discriminate]. simpl.
    rewrite IH, xorb_assoc. reflexivity.
Qed.

Lemma eval_vexpr_flat (rho : string -> Z -> bool) (bits : list item) :
  Forall (fun b => isinstance_Bit b = true) bits -> bits <> [] ->
  eval_vexpr rho (VXor (map leaf_verilog bits)) =
  Some (xor_all (bit_value rho) bits).
Proof.
  intros Hb Hnil. destruct bits as [|x bits]; [congruence |].
  inversion Hb as [|? ? Hx Hrest]; subst.
  destruct x as [name index|]; [| discriminate].
  change (eval_vexpr rho (VXor (map leaf_verilog (Bit name index :: bits)))) with
    (fold_left (fun acc e' => match acc, eval_vexpr rho e' with
                              | Some a, Some b => Some (xorb a b)
                              | _, _ => None
                              end) (map leaf_verilog bits) (Some (rho name index))).
  apply eval_vexpr_leaves, Hrest.
Qed.

(** X15: for every odd polynomial in 1..255 and two different signal names,
    [genVerilog] returns 8 assignments, for the output bits 0 to 7 in this
    order, and the expression assigned to bit [i], an exclusive or of bit
    selects of the two input vectors, has the value of bit [i] of
    [crc8_ref(c, d)] for all values [c] and [d] of the vectors. *)
Theorem genVerilog_correct (fuel : nat) (self : CrcGen) (genFunction : bool)
    (name0 inDataName inCrcName outCrcName : string) (h : heap) :
  Z.odd (P self) = true -> (0 < P self <= 255)%Z -> nrBits self = 8%Z ->
  inDataName <> inCrcName -> 9 <= fuel ->
  exists assigns h',
    genVerilog fuel self genFunction name0 inDataName inCrcName outCrcName h =
      Ok (VerilogText (P self) genFunction name0 inDataName inCrcName
            outCrcName 8 assigns) h' /\
    length assigns = 8 /\
    forall i e, assigns !! i = Some e ->
      forall c0 d0,
        eval_vexpr (inputs inCrcName inDataName c0 d0) e =
        Some (Z.testbit (crc8_ref c0 d0 (P self)) (Z.of_nat i)).
Proof.
  intros Hodd HP Hw Hne Hfuel.
  destruct (gen_formulas fuel self inDataName inCrcName h Hodd HP Hw Hne Hfuel)
    as (h1 & objs & Hgen & Hlen & Hobj).
  destruct fuel as [|fuel]; [lia |].
  assert (Hbits : Forall (Forall (fun b => isinstance_Bit b = true)) objs).
  { apply Forall_lookup. intros i bits Hi.
    eapply input_bit_is_Bit. apply (Hobj i bits Hi). }
  eexists _, _. split; [| split].
  - unfold genVerilog, bind. rewrite Hgen, Hw.
    rewrite <- Hlen at 1.
    rewrite (render_word_flat_verilog fuel (h1 ++ objs) objs Hbits (length h1))
      by (intros i bits Hi; rewrite lookup_app_plus; exact Hi).
    reflexivity.
  - rewrite length_map. exact Hlen.
  - intros i e Hi c0 d0. rewrite list_lookup_fmap in Hi.
    destruct (objs !! i) as [bits|] eqn:Hbi; [| discriminate].
    inversion Hi; subst e. clear Hi.
    destruct (Hobj i bits Hbi) as (Hin & Hnil & Hv).
    rewrite eval_vexpr_flat; [rewrite Hv; reflexivity | | exact Hnil].
    eapply input_bit_is_Bit; eauto.
Qed.

Lemma genVerilog_correct_witness :
  exists assigns h',
    genVerilog 9 {| P := 7; nrBits := 8 |} true "crc" "inData" "inCrc" "outCrc" [] =
      Ok (VerilogText 7 true "crc" "inData" "inCrc" "outCrc" 8 assigns) h' /\
    length assigns = 8 /\
    forall i e, assigns !! i = Some e ->
      forall c0 d0,
        eval_vexpr (inputs "inCrc" "inData" c0 d0) e =
        Some (Z.testbit (crc8_ref c0 d0 7) (Z.of_nat i)).
Proof.
  apply (genVerilog_correct 9 {| P := 7; nrBits := 8 |} true
           "crc" "inData" "inCrc" "outCrc" []);
    try reflexivity; try discriminate; simpl; lia.
Defined.

(** X16: the check of the command line accepts exactly the odd polynomials
    that do not exceed [2^width - 1]; it has no lower bound, so every
    negative odd polynomial is accepted. *)
Theorem validate_accepts (args : Args) :
  (0 <= nr_bits args)%Z ->
  (validate args = inr tt <->
   Z.odd (polynomial args) = true /\
   (polynomial args <= 2 ^ nr_bits args - 1)%Z).
Proof.
  intros Hw. unfold validate. rewrite land_1_odd, Z.shiftl_1_l.
  destruct (Z.odd (polynomial args)); cbn [negb].
  - destruct (Z.ltb_spec (nr_bits args) 0); [lia |].
    destruct (Z.gtb_spec (polynomial args) (2 ^ nr_bits args - 1)).
    + split; [discriminate | intros [_ H']; lia].
    + split; [intros _; split; [reflexivity | lia] | reflexivity].
  - split; [discriminate | intros [H' _]; discriminate].
Qed.

Lemma validate_accepts_witness :
  validate {| python := true; verilog_function := false;
              verilog_module := false; c := false; polynomial := -227;
              nr_bits := 8; name := "crc"; data_param := "data";
              crc_in_param := "crcIn"; crc_out_param := "crcOut";
              static := false; inline := false; test := false |} = inr tt.
Proof.
  apply validate_accepts; [simpl; lia |]. split; [reflexivity | simpl; lia].
Defined.

Lemma gen_flat (fuel : nat) (self : CrcGen) (dataVarName crcVarName : string)
    (h : heap) :
  nrBits self = 8%Z -> 9 <= fuel ->
  exists (h1 : heap) (objs : list (list item)),
    gen fuel self dataVarName crcVarName h =
      Ok (map Ref (seq (length h1) (length objs))) (h1 ++ objs) /\
    length objs = 8 /\
    Forall (Forall (fun b => isinstance_Bit b = true)) objs.
Proof.
  intros Hw Hfuel.
  destruct (gen_leaves (Forall (fun b => isinstance_Bit b = true))
              fuel self dataVarName crcVarName h Hw Hfuel)
    as (h1 & bitss & _ & Hgen & Hlen & Hall).
  - intros i _. repeat constructor.
  - intros a b Ha Hb. apply Forall_app. auto.
  - exists h1, (map optimize_items bitss).
    rewrite length_map, Hlen. split; [exact Hgen |]. split; [reflexivity |].
    apply Forall_fmap. eapply Forall_impl; [exact Hall |].
    intros bits Hb. simpl. apply Forall_forall. intros x Hx.
    apply optimize_items_elem in Hx. rewrite Forall_forall in Hb. apply Hb, Hx.
Qed.

Lemma emitters_return (fuel : nat) (self : CrcGen) (h : heap)
    (funcName crcVarName dataVarName outCrcName : string)
    (genFunction static0 inline0 : bool) :
  nrBits self = 8%Z -> 9 <= fuel ->
  (exists body h',
     genPython fuel self funcName crcVarName dataVarName h =
       Ok (PythonText (P self) funcName crcVarName dataVarName body) h' /\
     length body = 8) /\
  (exists assigns h',
     genVerilog fuel self genFunction funcName dataVarName crcVarName
       outCrcName h =
       Ok (VerilogText (P self) genFunction funcName dataVarName crcVarName
             outCrcName 8 assigns) h' /\
     length assigns = 8) /\
  (exists body h',
     genC fuel self funcName crcVarName dataVarName static0 inline0 h =
       Ok (CText (P self) funcName crcVarName dataVarName static0 inline0 8
             body) h' /\
     length body = 8).
Proof.
  intros Hw Hfuel.
  destruct (gen_flat fuel self dataVarName crcVarName h Hw Hfuel)
    as (h1 & objs & Hgen & Hlen & Hbits).
  destruct fuel as [|fuel]; [lia |].
  assert (Hpy := render_word_flat fuel (h1 ++ objs) objs Hbits (length h1)
                   (fun i bits Hi => eq_trans (lookup_app_plus h1 objs i) Hi)).
  assert (Hv := render_word_flat_verilog fuel (h1 ++ objs) objs Hbits (length h1)
                  (fun i bits Hi => eq_trans (lookup_app_plus h1 objs i) Hi)).
  split; [| split].
  - eexists _, _. split.
    + unfold genPython, bind. rewrite Hgen, Hpy. reflexivity.
    + rewrite length_imap, length_map. exact Hlen.
  - eexists _, _. split.
    + unfold genVerilog, bind. rewrite Hgen, Hv, Hw. reflexivity.
    + rewrite length_map. exact Hlen.
  - eexists _, _. split.
    + unfold genC, bind. rewrite Hgen, Hpy, Hw. reflexivity.
    + rewrite length_imap, length_map. exact Hlen.
Qed.

(** X17: for width 8 and a recursion depth of 9 or more the three emitters
    return a text, whatever the polynomial and the names (which are not
    checked): [genPython] and [genC] a body of 8 lines, [genVerilog] 8
    assignments. *)
Theorem emitters_return_8_lines (fuel : nat) (self : CrcGen) (h : heap)
    (funcName crcVarName dataVarName outCrcName : string)
    (genFunction static0 inline0 : bool) :
  nrBits self = 8%Z -> 9 <= fuel ->
  (exists body h',
     genPython fuel self funcName crcVarName dataVarName h =
       Ok (PythonText (P self) funcName crcVarName dataVarName body) h' /\
     length body = 8) /\
  (exists assigns h',
     genVerilog fuel self genFunction funcName dataVarName crcVarName
       outCrcName h =
       Ok (VerilogText (P self) genFunction funcName dataVarName crcVarName
             outCrcName 8 assigns) h' /\
     length assigns = 8) /\
  (exists body h',
     genC fuel self funcName crcVarName dataVarName static0 inline0 h =
       Ok (CText (P self) funcName crcVarName dataVarName static0 inline0 8
             body) h' /\
     length body = 8).
Proof. apply emitters_return. Qed.

Lemma emitters_return_8_lines_witness :
  exists body h',
    genC 9 {| P := 7; nrBits := 8 |} "crc" "crc" "data" true true [] =
      Ok (CText 7 "crc" "crc" "data" true true 8 body) h' /\
    length body = 8.
Proof.
  apply (emitters_return_8_lines 9 {| P := 7; nrBits := 8 |} []
           "crc" "crc" "data" "outCrc" true true true).
  - reflexivity.
  - lia.
Defined.

Lemma validate_odd (args : Args) :
  validate args = inr tt -> Z.odd (polynomial args) = true.
Proof.
  unfold validate. rewrite land_1_odd.
  destruct (Z.odd (polynomial args)); [reflexivity | discriminate].
Qed.

(** X18: for every polynomial that the check accepts, negative ones
    included, the self test ([crcgen.py -T]) finds the generated function
    equal to the reference on all 65536 pairs: the program prints
    ["Testing..."] and ["done."] and ends with status 0. *)
Theorem self_test_passes (fuel : nat) (args : Args) :
  validate args = inr tt -> nr_bits args = 8%Z -> test args = true ->
  9 <= fuel ->
  main fuel args = {| stdout := [PrintLine "Testing..."; PrintLine "done."];
                      stderr := None; exit_status := Some 0%Z |}.
Proof.
  intros Hv Hw Ht Hfuel. pose proof (validate_odd args Hv) as Hodd.
  unfold main. rewrite Hv, Hw, (CrcGen_init_odd _ _ _ Hodd), Ht.
  destruct (genPython_correct_odd fuel {| P := polynomial args; nrBits := 8 |}
              "crc" "crc" "data" []) as (t & h' & E & Hcall);
    try assumption; try reflexivity; try discriminate.
  rewrite E. cbn [P] in Hcall.
  assert (Hs : self_test t (polynomial args) = None).
  { unfold self_test. apply first_failure_None. intros c0 _.
    apply first_failure_None. intros d0 _.
    rewrite Hcall. unfold pyval_eqb. rewrite Z.eqb_refl. reflexivity. }
  rewrite Hs. reflexivity.
Qed.

Lemma self_test_passes_witness :
  main 9 args_selftest =
  {| stdout := [PrintLine "Testing..."; PrintLine "done."];
     stderr := None; exit_status := Some 0%Z |}.
Proof.
  apply (self_test_passes 9 args_selftest).
  - reflexivity.
  - reflexivity.
  - reflexivity.
  - lia.
Defined.

(** X19: with an accepted polynomial and width 8, and without [-T], the
    program ends with status 0 and nothing on standard error; it has
    printed exactly one text if an output mode was selected, and nothing at
    all if none was. *)
Theorem main_prints_one_text (fuel : nat) (args : Args) :
  validate args = inr tt -> nr_bits args = 8%Z -> test args = false ->
  9 <= fuel ->
  exists out,
    main fuel args = {| stdout := out; stderr := None;
                        exit_status := Some 0%Z |} /\
    (python args || verilog_function args || verilog_module args || c args
       = true -> exists t, out = [PrintText t]) /\
    (python args || verilog_function args || verilog_module args || c args
       = false -> out = []).
Proof.
  intros Hv Hw Ht Hfuel. pose proof (validate_odd args Hv) as Hodd.
  unfold main. rewrite Hv, Hw, (CrcGen_init_odd _ _ _ Hodd), Ht.
  set (self := {| P := polynomial args; nrBits := 8 |}).
  destruct (python args) eqn:Hpy.
  { destruct (emitters_return fuel self [] (name args) (crc_in_param args)
                (data_param args) (crc_out_param args) true false false
                eq_refl Hfuel) as ((body & h' & E & _) & _).
    unfold print_generated. rewrite E. eexists. split; [reflexivity |].
    split; [eauto | discriminate]. }
  destruct (verilog_function args) eqn:Hvf.
  { destruct (emitters_return fuel self [] (name args) (crc_in_param args)
                (data_param args) (crc_out_param args) true false false
                eq_refl Hfuel) as (_ & (assigns & h' & E & _) & _).
    unfold print_generated. rewrite E. eexists. split; [reflexivity |].
    split; [eauto | discriminate]. }
  destruct (verilog_module args) eqn:Hvm.
  { destruct (emitters_return fuel self [] (name args) (crc_in_param args)
                (data_param args) (crc_out_param args) false false false
                eq_refl Hfuel) as (_ & (assigns & h' & E & _) & _).
    unfold print_generated. rewrite E. eexists. split; [reflexivity |].
    split; [eauto | discriminate]. }
  destruct (c args) eqn:Hc.
  { destruct (emitters_return fuel self [] (name args) (crc_in_param args)
                (data_param args) (crc_out_param args) false (static args)
                (inline args) eq_refl Hfuel) as (_ & _ & (body & h' & E & _)).
    unfold print_generated. rewrite E. eexists. split; [reflexivity |].
    split; [eauto | discriminate]. }
  exists []. split; [reflexivity |]. split; [discriminate | reflexivity].
Qed.

Lemma main_prints_one_text_witness :
  exists out,
    main 9 args_c = {| stdout := out; stderr := None;
                       exit_status := Some 0%Z |} /\
    (python args_c || verilog_function args_c || verilog_module args_c
       || c args_c = true -> exists t, out = [PrintText t]) /\
    (python args_c || verilog_function args_c || verilog_module args_c
       || c args_c = false -> out = []).
Proof.
  apply (main_prints_one_text 9 args_c).
  - reflexivity.
  - reflexivity.
  - reflexivity.
  - lia.
Defined.

(** ** The value of the rendered expressions *)

Lemma Bit_py_eval (rho : string -> option pyval) (name : string) (index v : Z) :
  rho name = Some (VInt v) -> (0 <= index)%Z ->
  eval_expr rho (Bit_py name index) = inr (VInt (Z.b2z (Z.testbit v index))).
Proof.
  intros Hv Hi. unfold Bit_py.
  destruct (Z.eqb_spec index 0) as [->|Hnz]; cbn [negb eval_expr];
    unfold lookup_var; rewrite Hv; cbn [andThen py_and py_rshift].
  - rewrite land_1_b2z, Z.bit0_odd. reflexivity.
  - destruct (Z.ltb_spec index 0); [lia |]. cbn [andThen py_and].
    rewrite land_1_b2z, <- Z.bit0_odd, Z.shiftr_spec by lia. reflexivity.
Qed.

(** X20: the expression that [Bit.py] renders has the value of bit [index]
    of the variable, 0 or 1, for every integer value of the variable,
    negative ones included; with a negative [index] its evaluation raises
    [ValueError], and [NameError] when the variable is not defined. *)
Theorem Bit_py_value (rho : string -> option pyval) (name : string)
    (index : Z) :
  (forall v, rho name = Some (VInt v) -> (0 <= index)%Z ->
     eval_expr rho (Bit_py name index) =
     inr (VInt (Z.b2z (Z.testbit v index)))) /\
  (forall v, rho name = Some (VInt v) -> (index < 0)%Z ->
     eval_expr rho (Bit_py name index) = inl ValueError) /\
  (rho name = None ->
     eval_expr rho (Bit_py name index) = inl (NameError name)).
Proof.
  split; [| split].
  - intros v Hv Hi. apply Bit_py_eval; assumption.
  - intros v Hv Hi. unfold Bit_py.
    destruct (Z.eqb_spec index 0) as [->|Hnz]; [lia |].
    cbn [negb eval_expr]. unfold lookup_var. rewrite Hv.
    cbn [andThen py_rshift].
    destruct (Z.ltb_spec index 0); [reflexivity | lia].
  - intros Hv. unfold Bit_py.
    destruct (negb (index =? 0)%Z); cbn [eval_expr]; unfold lookup_var;
      rewrite Hv; reflexivity.
Qed.

Lemma Bit_py_value_witness :
  eval_expr (fun _ => Some (VInt (-2))) (Bit_py "crc" 7) = inr (VInt 1) /\
  eval_expr (fun _ => Some (VInt 5)) (Bit_py "crc" (-1)) = inl ValueError.
Proof.
  split.
  - apply (proj1 (Bit_py_value (fun _ => Some (VInt (-2))) "crc" 7) (-2)%Z);
      [reflexivity | lia].
  - apply (proj1 (proj2 (Bit_py_value (fun _ => Some (VInt 5)) "crc" (-1))) 5%Z);
      [reflexivity | lia].
Defined.

Lemma eval_bits_fold (rho : string -> option pyval) (v : string -> Z)
    (bits : list item) :
  Forall (fun b => exists name index,
            b = Bit name index /\ (0 <= index)%Z /\
            rho name = Some (VInt (v name))) bits ->
  forall a : bool,
    fold_left (fun acc e' =>
                 andThen acc (fun a =>
                 andThen (eval_expr rho e') (fun b => py_xor a b)))
              (map leaf_py bits) (inr (VInt (Z.b2z a)))
    = inr (VInt (Z.b2z (xorb a (xor_all
             (bit_value (fun name index => Z.testbit (v name) index)) bits)))).
Proof.
  induction 1 as [|x bits (name & index & -> & Hi & Hv) _ IH]; intros a.
  - simpl. rewrite xorb_false_r. reflexivity.
  - cbn [map fold_left leaf_py xor_all foldr bit_value].
    rewrite (Bit_py_eval rho name index (v name) Hv Hi).
    cbn [andThen py_xor]. rewrite lxor_b2z.
    fold (xor_all (bit_value (fun name index => Z.testbit (v name) index)) bits).
    rewrite IH, xorb_assoc. reflexivity.
Qed.

(** X21: for an [XOR] whose operands are bits, at least one, with
    non-negative indices and variables bound to integers, the expression
    that [py()] renders has the value 0 or 1 of the exclusive or of these
    bits. *)
Theorem XOR_py_value (fuel : nat) (h : heap) (l : loc) (bits : list item)
    (rho : string -> option pyval) (v : string -> Z) :
  h !! l = Some bits -> bits <> [] ->
  Forall (fun b => exists name index,
            b = Bit name index /\ (0 <= index)%Z /\
            rho name = Some (VInt (v name))) bits ->
  exists e,
    item_py (S fuel) h (Ref l) = Some e /\
    eval_expr rho e =
    inr (VInt (Z.b2z (xor_all
           (bit_value (fun name index => Z.testbit (v name) index)) bits))).
Proof.
  intros Hl Hnil Hb. exists (EXor (map leaf_py bits)). split.
  - apply item_py_flat; [exact Hl |].
    eapply Forall_impl; [exact Hb |]. intros x (n & i & -> & _). reflexivity.
  - destruct bits as [|x bits]; [congruence |].
    inversion Hb as [|? ? (name & index & -> & Hi & Hv) Hrest]; subst.
    change (eval_expr rho (EXor (map leaf_py (Bit name index :: bits)))) with
      (fold_left (fun acc e' =>
                    andThen acc (fun a =>
                    andThen (eval_expr rho e') (fun b => py_xor a b)))
                 (map leaf_py bits) (eval_expr rho (Bit_py name index))).
    rewrite (Bit_py_eval rho name index (v name) Hv Hi).
    apply eval_bits_fold, Hrest.
Qed.

Lemma XOR_py_value_witness :
  exists e,
    item_py 1 [[Bit "x" 0; Bit "x" 1]] (Ref 0) = Some e /\
    eval_expr (fun _ => Some (VInt 2)) e = inr (VInt 1).
Proof.
  apply (XOR_py_value 0 [[Bit "x" 0; Bit "x" 1]] 0 [Bit "x" 0; Bit "x" 1]
           (fun _ => Some (VInt 2)) (fun _ => 2%Z)).
  - reflexivity.
  - discriminate.
  - apply Forall_forall. intros b Hb.
    rewrite !elem_of_cons, elem_of_nil in Hb.
    destruct Hb as [->|[->|[]]]; eexists _, _; (split; [reflexivity |]);
      split; first [lia | reflexivity].
Defined.

(** ** The reference [crc8_ref] *)

Lemma crc8_step_high (P0 x k : Z) :
  (8 <= k)%Z -> Z.testbit (crc8_step P0 x) k = false.
Proof.
  intros Hk. unfold crc8_step. rewrite Z.land_spec.
  change 255%Z with (Z.ones 8). rewrite Z.ones_spec_high by lia.
  apply andb_false_r.
Qed.

Lemma crc8_step_lxor (P0 x y : Z) :
  crc8_step P0 (Z.lxor x y) = Z.lxor (crc8_step P0 x) (crc8_step P0 y).
Proof.
  apply Z.bits_inj'. intros k Hk. rewrite Z.lxor_spec.
  destruct (Z.ltb_spec k 8) as [Hlt|Hge].
  - rewrite !crc8_step_testbit, !Z.lxor_spec by lia.
    destruct (Z.testbit x (k - 1)), (Z.testbit y (k - 1)),
      (Z.testbit x 7), (Z.testbit y 7), (Z.testbit P0 k); reflexivity.
  - rewrite !crc8_step_high by lia. reflexivity.
Qed.

Lemma iter_crc8_step_lxor (P0 : Z) (n : nat) (x y : Z) :
  Nat.iter n (crc8_step P0) (Z.lxor x y) =
  Z.lxor (Nat.iter n (crc8_step P0) x) (Nat.iter n (crc8_step P0) y).
Proof.
  induction n as [|n IH]; [reflexivity |].
  simpl. rewrite IH. apply crc8_step_lxor.
Qed.

Lemma crc8_ref_lxor (c0 d1 d2 P0 : Z) :
  crc8_ref c0 (Z.lxor d1 d2) P0 =
  Z.lxor (crc8_ref c0 d1 P0) (crc8_ref 0 d2 P0).
Proof.
  unfold crc8_ref. rewrite <- iter_crc8_step_lxor. f_equal.
  rewrite Z.lxor_0_r.
  rewrite !Z.lxor_assoc. f_equal. apply Z.lxor_comm.
Qed.

(** X22: for all integers, [crc8_ref] returns a byte, and it is linear over
    exclusive or: the CRC of [d1 ^ d2] from the register [c] is the CRC of
    [d1] from [c], exclusive-or-ed with the CRC of [d2] from the register
    0.  In particular it depends on [crc] and [data] only through
    [data ^ crc]. *)
Theorem crc8_ref_linear (c0 d1 d2 P0 : Z) :
  (0 <= crc8_ref c0 d1 P0 < 256)%Z /\
  crc8_ref c0 (Z.lxor d1 d2) P0 =
    Z.lxor (crc8_ref c0 d1 P0) (crc8_ref 0 d2 P0) /\
  crc8_ref c0 d1 P0 = crc8_ref 0 (Z.lxor d1 c0) P0.
Proof.
  split; [apply crc8_ref_range |]. split; [apply crc8_ref_lxor |].
  unfold crc8_ref. rewrite Z.lxor_0_r. reflexivity.
Qed.

Lemma crc8_ref_kernel (c0 d1 d2 P0 : Z) :
  Z.odd P0 = true ->
  (0 <= d1 <= 255)%Z -> (0 <= d2 <= 255)%Z ->
  crc8_ref c0 d1 P0 = crc8_ref c0 d2 P0 -> d1 = d2.
Proof.
  intros Hodd H1 H2 E.
  assert (Hker :
    forallb (fun p =>
      negb (Z.odd p) ||
      forallb (fun x => (x =? 0)%Z || negb (crc8_ref 0 x p =? 0)%Z) range256)
      range256 = true) by (vm_compute; reflexivity).
  rewrite forallb_forall in Hker.
  assert (HinP : In (P0 mod 256)%Z range256).
  { unfold range256. apply in_map_iff. exists (Z.to_nat (P0 mod 256)).
    pose proof (Z.mod_pos_bound P0 256 ltac:(lia)).
    split; [lia |]. apply in_seq. lia. }
  specialize (Hker _ HinP). rewrite odd_low_byte, Hodd in Hker.
  cbn [negb orb] in Hker. rewrite forallb_forall in Hker.
  set (x := Z.lxor d1 d2).
  assert (Hx : (0 <= x < 256)%Z).
  { assert (Hbyte : forall d k, (0 <= d <= 255)%Z -> (8 <= k)%Z ->
                                Z.testbit d k = false).
    { intros d k Hd Hk. rewrite <- (Z.mod_small d (2 ^ 8)) by lia.
      apply Z.mod_pow2_bits_high. lia. }
    assert (Hm : (x mod 2 ^ 8 = x)%Z).
    { apply Z.bits_inj'. intros k Hk. rewrite Z.testbit_mod_pow2 by lia.
      destruct (Z.ltb_spec k 8); [reflexivity |].
      unfold x. rewrite Z.lxor_spec, !Hbyte by lia. reflexivity. }
    rewrite <- Hm. apply Z.mod_pos_bound. lia. }
  assert (Hinx : In x range256).
  { unfold range256. apply in_map_iff. exists (Z.to_nat x).
    split; [lia |]. apply in_seq. lia. }
  specialize (Hker x Hinx).
  assert (E0 : crc8_ref 0 x (P0 mod 256) = 0%Z).
  { rewrite crc8_ref_low_byte.
    assert (Hd1 : d1 = Z.lxor d2 x).
    { unfold x. rewrite (Z.lxor_comm d1 d2), <- Z.lxor_assoc, Z.lxor_nilpotent.
      reflexivity. }
    rewrite Hd1, crc8_ref_lxor in E.
    apply (f_equal (Z.lxor (crc8_ref c0 d2 P0))) in E.
    rewrite <- Z.lxor_assoc, Z.lxor_nilpotent, Z.lxor_0_l in E. exact E. }
  rewrite E0 in Hker. cbn [Z.eqb negb] in Hker. rewrite orb_false_r in Hker.
  apply Z.eqb_eq in Hker. unfold x in Hker. apply Z.lxor_eq in Hker. exact Hker.
Qed.

(** X23: with an odd polynomial, negative ones included, the reference
    loses no information: from the same register, two different input
    bytes never give the same CRC. *)
Theorem crc8_ref_injective (c0 d1 d2 P0 : Z) :
  Z.odd P0 = true ->
  (0 <= d1 <= 255)%Z -> (0 <= d2 <= 255)%Z ->
  d1 <> d2 -> crc8_ref c0 d1 P0 <> crc8_ref c0 d2 P0.
Proof.
  intros Hodd H1 H2 Hne E. apply Hne.
  eapply crc8_ref_kernel; eauto.
Qed.

Lemma crc8_ref_injective_witness :
  crc8_ref 171 1 29 <> crc8_ref 171 2 29.
Proof.
  apply (crc8_ref_injective 171 1 2 29); [reflexivity | lia | lia | lia].
Defined.
